(** * Shunting Yard calculator (app.js): model and verification

    The development follows [src/app.js]: the [Stack] and [Queue]
    containers, the [ShuntingYard] class with [makeString] (tokenizer),
    [getPrecedence], [compute_infix] (infix to postfix), [compute_rpn]
    (postfix evaluator) and [clear], and the [calculate] driver.

    JavaScript built-ins used by the source ([isNaN], [parseFloat],
    [Number.prototype.toString], the arithmetic on doubles, array reads
    and writes) are modelled after ECMA-262.  Numbers are IEEE 754
    binary64 values ([spec_float] with precision 53 and [emax] 1024).
    A string is a sequence of code units; the model keeps code units
    below 256 (type [ascii]).  Arrays are unbounded lists. *)

From Stdlib Require Import ZArith Lia Bool List Ascii String.
From Stdlib Require Import Floats.SpecFloat DecimalString DecimalN.
From stdpp Require Import base list strings.
Import ListNotations.

Local Open Scope string_scope.
Local Open Scope list_scope.
Local Open Scope Z_scope.

(** ** JavaScript numbers *)

Module JSNumber.

Definition number := spec_float.

Definition prec : Z := 53.
Definition emax : Z := 1024.

Definition NaN : number := S754_nan.
Definition Infinity : number := S754_infinity false.
Definition NegInfinity : number := S754_infinity true.
Definition zero : number := S754_zero false.
Definition negzero : number := S754_zero true.

Definition add : number -> number -> number := SFadd prec emax.
Definition sub : number -> number -> number := SFsub prec emax.
Definition mul : number -> number -> number := SFmul prec emax.
Definition div : number -> number -> number := SFdiv prec emax.

Definition is_nan (x : number) : bool :=
  match x with S754_nan => true | _ => false end.

Definition is_zero (x : number) : bool :=
  match x with S754_zero _ => true | _ => false end.

Definition is_finite (x : number) : bool :=
  match x with S754_zero _ | S754_finite _ _ _ => true | _ => false end.

Definition eqb (x y : number) : bool :=
  match x, y with
  | S754_zero a, S754_zero b => Bool.eqb a b
  | S754_infinity a, S754_infinity b => Bool.eqb a b
  | S754_nan, S754_nan => true
  | S754_finite a m e, S754_finite b m' e' =>
      Bool.eqb a b && Pos.eqb m m' && Z.eqb e e'
  | _, _ => false
  end.

(** The double nearest to [m * 10^e] (ties to even), for [m >= 0];
    [neg] is the sign.  This is the rounding of the mathematical value
    of a decimal literal. *)
Definition of_decimal (neg : bool) (m e : Z) : number :=
  match m with
  | Z0 => S754_zero neg
  | Zpos p =>
      if 0 <=? e then
        binary_round prec emax neg (p * Z.to_pos (10 ^ e)) 0
      else
        let '(q, e', l) :=
          SFdiv_core_binary prec emax (Z.pos p) 0 (10 ^ (- e)) 0 in
        binary_round_aux prec emax neg q e' l
  | Zneg _ => NaN
  end.

(** The double of an integer. *)
Definition of_Z (z : Z) : number :=
  of_decimal (z <? 0) (Z.abs z) 0.

(** *** Number::toString, radix 10 *)

Definition decimal_digits (z : Z) : string :=
  NilZero.string_of_uint (N.to_uint (Z.to_N z)).

Definition num_digits (z : Z) : Z :=
  Z.of_nat (String.length (decimal_digits z)).

(** [n] with [10^(n-1) <= x < 10^n] for the positive rational
    [x = p / d]. *)
Definition decimal_exponent (p d : Z) : Z :=
  if d <=? p then num_digits (p / d) else 1 - num_digits (d / p).

(** The candidates with [k] digits for [x = p / d]: the integers [s]
    next to [x * 10^(k-n)], each with its exponent [n], kept when
    [s * 10^(n-k)] rounds to [x]; the closest one first. *)
Definition candidates (x : number) (p d n k : Z) : list (Z * Z) :=
  let num := if n <=? k then p * 10 ^ (k - n) else p in
  let den := if n <=? k then d else d * 10 ^ (n - k) in
  let lo := num / den in
  let r := num mod den in
  let hi := lo + 1 in
  let ok s := eqb (of_decimal false s (n - k)) x in
  let clo := if ok lo then [(lo, n)] else [] in
  let chi :=
    if ok hi then
      (if hi =? 10 ^ k then [(1, n + 1)] else [(hi, n)])
    else [] in
  match Z.compare (2 * r) den with
  | Lt => clo ++ chi
  | Gt => chi ++ clo
  | Eq => if Z.even lo then clo ++ chi else chi ++ clo
  end.

(** The shortest digit string [s] and exponent [n] such that
    [s * 10^(n-k)] rounds to [x], [k] the number of digits of [s]. *)
Fixpoint shortest (x : number) (p d n : Z) (k : Z) (fuel : nat) : Z * Z :=
  match candidates x p d n k with
  | c :: _ => c
  | [] =>
      match fuel with
      | O => ((if n <=? k then p * 10 ^ (k - n) / d
               else p / (d * 10 ^ (n - k))), n)
      | S fuel' => shortest x p d n (k + 1) fuel'
      end
  end.

Definition zeros (n : Z) : string :=
  string_of_list_ascii (repeat "0"%char (Z.to_nat n)).

Definition format (digits : string) (n : Z) : string :=
  let k := Z.of_nat (String.length digits) in
  if (k <=? n) && (n <=? 21) then digits +:+ zeros (n - k)
  else if (0 <? n) && (n <=? 21) then
    substring 0 (Z.to_nat n) digits +:+ "." +:+
    substring (Z.to_nat n) (Z.to_nat (k - n)) digits
  else if (-6 <? n) && (n <=? 0) then "0." +:+ zeros (- n) +:+ digits
  else
    let e := n - 1 in
    let sign := if e <? 0 then "-" else "+" in
    if k =? 1 then digits +:+ "e" +:+ sign +:+ decimal_digits (Z.abs e)
    else substring 0 1 digits +:+ "." +:+
         substring 1 (Z.to_nat (k - 1)) digits +:+
         "e" +:+ sign +:+ decimal_digits (Z.abs e).

Definition toString (x : number) : string :=
  match x with
  | S754_nan => "NaN"
  | S754_zero _ => "0"
  | S754_infinity s => if s then "-Infinity" else "Infinity"
  | S754_finite s m e =>
      let p := if 0 <=? e then Z.pos m * 2 ^ e else Z.pos m in
      let d := if 0 <=? e then 1 else 2 ^ (- e) in
      let n := decimal_exponent p d in
      let '(digits, n') :=
        shortest (S754_finite false m e) p d n 1 16 in
      (if s then "-" else "") +:+ format (decimal_digits digits) n'
  end.

End JSNumber.

Import JSNumber.

(** ** JavaScript values and the built-in conversions *)

(** The values that occur in the program's arrays: strings, and
    [undefined] (the result of [pop]/[dequeue]/[peek] on an empty
    container and of reading an array hole). *)
Inductive value :=
| undefined
| Str (s : string).

Definition value_eqb (v w : value) : bool :=
  match v, w with
  | undefined, undefined => true
  | Str a, Str b => String.eqb a b
  | _, _ => false
  end.

(** [v === w] and [v !== w] on these values. *)
Definition strict_eq (v w : value) : bool := value_eqb v w.
Definition strict_neq (v w : value) : bool := negb (value_eqb v w).

Module JSString.

Definition code (c : ascii) : Z := Z.of_N (N_of_ascii c).

Definition is_digit (c : ascii) : bool :=
  (48 <=? code c) && (code c <=? 57).

(** WhiteSpace and LineTerminator code units (below 256): TAB, LF, VT,
    FF, CR, SP, NBSP. *)
Definition is_space (c : ascii) : bool :=
  let n := code c in
  ((9 <=? n) && (n <=? 13)) || (n =? 32) || (n =? 160).

(** Value of a digit in a radix up to 16, if it is one. *)
Definition digit_value (radix : Z) (c : ascii) : option Z :=
  let n := code c in
  let v :=
    if (48 <=? n) && (n <=? 57) then n - 48
    else if (97 <=? n) && (n <=? 102) then n - 87
    else if (65 <=? n) && (n <=? 70) then n - 55
    else 16 in
  if v <? radix then Some v else None.

Fixpoint trim_start (l : list ascii) : list ascii :=
  match l with
  | c :: l' => if is_space c then trim_start l' else l
  | [] => []
  end.

Definition trim (l : list ascii) : list ascii :=
  rev (trim_start (rev (trim_start l))).

(** The longest run of decimal digits at the front: its value, its
    length, and what follows. *)
Fixpoint scan_digits (acc : Z) (n : Z) (l : list ascii)
  : Z * Z * list ascii :=
  match l with
  | c :: l' =>
      if is_digit c then scan_digits (10 * acc + (code c - 48)) (n + 1) l'
      else (acc, n, l)
  | [] => (acc, n, l)
  end.

(** A scanned StrUnsignedDecimalLiteral: [Infinity], or mantissa and
    decimal exponent. *)
Inductive literal :=
| LitInfinity
| LitDecimal (m e : Z).

(** ExponentPart, when one follows. *)
Definition scan_exponent (l : list ascii) : Z * list ascii :=
  match l with
  | c :: l1 =>
      if (code c =? 101) || (code c =? 69) then
        let '(neg, l2) :=
          match l1 with
          | s :: l2 =>
              if code s =? 45 then (true, l2)
              else if code s =? 43 then (false, l2)
              else (false, l1)
          | [] => (false, l1)
          end in
        let '(v, n, l3) := scan_digits 0 0 l2 in
        if n =? 0 then (0, l) else ((if neg then - v else v), l3)
      else (0, l)
  | [] => (0, l)
  end.

Definition infinity_text : list ascii := list_ascii_of_string "Infinity".

Fixpoint strip_prefix (p l : list ascii) : option (list ascii) :=
  match p, l with
  | [], _ => Some l
  | a :: p', b :: l' => if Ascii.eqb a b then strip_prefix p' l' else None
  | _ :: _, [] => None
  end.

(** The longest prefix that is a StrUnsignedDecimalLiteral. *)
Definition scan_unsigned (l : list ascii) : option (literal * list ascii) :=
  match strip_prefix infinity_text l with
  | Some rest => Some (LitInfinity, rest)
  | None =>
      let '(ip, ni, l1) := scan_digits 0 0 l in
      match l1 with
      | c :: l2 =>
          if code c =? 46 then
            let '(fp, nf, l3) := scan_digits 0 0 l2 in
            if ni + nf =? 0 then None
            else
              let '(e, l4) := scan_exponent l3 in
              Some (LitDecimal (ip * 10 ^ nf + fp) (e - nf), l4)
          else if ni =? 0 then None
          else
            let '(e, l4) := scan_exponent l1 in
            Some (LitDecimal ip e, l4)
      | [] => if ni =? 0 then None else Some (LitDecimal ip 0, [])
      end
  end.

(** The longest prefix that is a StrDecimalLiteral, with its sign. *)
Definition scan_signed (l : list ascii)
  : option (bool * literal * list ascii) :=
  let '(neg, l1) :=
    match l with
    | s :: l1 =>
        if code s =? 45 then (true, l1)
        else if code s =? 43 then (false, l1)
        else (false, l)
    | [] => (false, l)
    end in
  match scan_unsigned l1 with
  | Some (lit, rest) => Some (neg, lit, rest)
  | None => None
  end.

Definition literal_value (neg : bool) (lit : literal) : number :=
  match lit with
  | LitInfinity => S754_infinity neg
  | LitDecimal m e => of_decimal neg m e
  end.

(** Digits of a NonDecimalIntegerLiteral, all of them. *)
Fixpoint scan_radix (radix acc : Z) (l : list ascii) : option Z :=
  match l with
  | [] => Some acc
  | c :: l' =>
      match digit_value radix c with
      | Some v => scan_radix radix (radix * acc + v) l'
      | None => None
      end
  end.

Definition radix_of_prefix (c : ascii) : option Z :=
  let n := code c in
  if (n =? 120) || (n =? 88) then Some 16
  else if (n =? 111) || (n =? 79) then Some 8
  else if (n =? 98) || (n =? 66) then Some 2
  else None.

(** StringToNumber. *)
Definition StringToNumber (s : string) : number :=
  match trim (list_ascii_of_string s) with
  | [] => zero
  | l =>
      let decimal :=
        match scan_signed l with
        | Some (neg, lit, []) => literal_value neg lit
        | _ => NaN
        end in
      match l with
      | z :: x :: (_ :: _) as ds =>
          if code z =? 48 then
            match radix_of_prefix x with
            | Some radix =>
                match scan_radix radix 0 ds with
                | Some v => of_Z v
                | None => NaN
                end
            | None => decimal
            end
          else decimal
      | _ => decimal
      end
  end.

End JSString.

(** ToString of a value. *)
Definition ToString (v : value) : string :=
  match v with
  | undefined => "undefined"
  | Str s => s
  end.

(** ToNumber of a value. *)
Definition ToNumber (v : value) : number :=
  match v with
  | undefined => NaN
  | Str s => JSString.StringToNumber s
  end.

(** The global [isNaN]. *)
Definition isNaN (v : value) : bool := is_nan (ToNumber v).

(** The global [parseFloat]: the longest prefix of the trimmed string
    that is a StrDecimalLiteral, or [NaN]. *)
Definition parseFloat (v : value) : number :=
  match JSString.scan_signed
          (JSString.trim_start (list_ascii_of_string (ToString v))) with
  | Some (neg, lit, _) => JSString.literal_value neg lit
  | None => NaN
  end.

(** ** Outcomes of running a method *)

(** A call returns normally, throws, or runs out of fuel.  Fuel bounds
    the number of iterations of each [while] loop; a call that runs out
    of fuel for every amount of fuel does not terminate. *)

Inductive exn :=
| TypeError.

Inductive outcome (A : Type) :=
| Normal (a : A)
| Throw (e : exn)
| OutOfFuel.

Arguments Normal {A} a.
Arguments Throw {A} e.
Arguments OutOfFuel {A}.

#[export] Instance outcome_ret : MRet outcome := @Normal.

#[export] Instance outcome_bind : MBind outcome :=
  fun A B f m =>
    match m with
    | Normal a => f a
    | Throw e => Throw e
    | OutOfFuel => OutOfFuel
    end.

(** [while (cond) body], at most [fuel - 1] iterations. *)
Fixpoint while {St : Type} (fuel : nat) (cond : St -> bool)
  (body : St -> outcome St) (st : St) : outcome St :=
  match fuel with
  | O => OutOfFuel
  | S fuel' =>
      if cond st then st' ← body st; while fuel' cond body st'
      else mret st
  end.

(** [for] over the elements of a list, in order. *)
Fixpoint for_each {A St : Type} (body : St -> A -> outcome St)
  (l : list A) (st : St) : outcome St :=
  match l with
  | [] => mret st
  | x :: l' => st' ← body st x; for_each body l' st'
  end.

(** ** Arrays *)

(** [a[i]]: [undefined] outside the array (and at a hole). *)
Definition array_get (a : list value) (i : Z) : value :=
  if i <? 0 then undefined else default undefined (a !! Z.to_nat i).

(** [a[i] = v]: an index past the end extends the array, and the holes
    left in between read as [undefined]. *)
Definition array_set (a : list value) (i : nat) (v : value) : list value :=
  if (i <? length a)%nat then <[i:=v]> a
  else a ++ repeat undefined (i - length a) ++ [v].

(** ** class Stack *)

Record Stack := mkStack { stack_array : list value }.

Module Stack.

Definition new : Stack := mkStack [].

Definition push (this : Stack) (v : value) : Stack :=
  mkStack (stack_array this ++ [v]).

Definition isEmpty (this : Stack) : bool :=
  (length (stack_array this) =? 0)%nat.

(** [if (!this.isEmpty()) return this.array.pop();] and [undefined]
    otherwise. *)
Definition pop (this : Stack) : value * Stack :=
  if negb (isEmpty this) then
    (List.last (stack_array this) undefined,
     mkStack (removelast (stack_array this)))
  else (undefined, this).

Definition peek (this : Stack) : value :=
  array_get (stack_array this) (Z.of_nat (length (stack_array this)) - 1).

End Stack.

(** ** class Queue *)

Record Queue := mkQueue { queue_array : list value }.

Module Queue.

Definition new : Queue := mkQueue [].

Definition enqueue (this : Queue) (v : value) : Queue :=
  mkQueue (queue_array this ++ [v]).

Definition isEmpty (this : Queue) : bool :=
  (length (queue_array this) =? 0)%nat.

(** [if (!this.isEmpty()) return this.array.shift();] *)
Definition dequeue (this : Queue) : value * Queue :=
  if negb (isEmpty this) then
    (List.hd undefined (queue_array this), mkQueue (List.tl (queue_array this)))
  else (undefined, this).

End Queue.

(** ** class ShuntingYard *)

Record ShuntingYard := mkShuntingYard {
  stream : Queue;
  q : Queue;
  s : Stack
}.

Module ShuntingYard.

(** [constructor()] *)
Definition new : ShuntingYard :=
  mkShuntingYard Queue.new Queue.new Stack.new.

(** [clear()] *)
Definition clear (this : ShuntingYard) : ShuntingYard :=
  mkShuntingYard (stream this) Queue.new Stack.new.

(** [recv.concat(arg)]: reading the property of [undefined] throws. *)
Definition concat (recv : value) (arg : string) : outcome value :=
  match recv with
  | Str x => mret (Str (x +:+ arg))
  | undefined => Throw TypeError
  end.

(** Body of the second loop of [makeString], on the character
    [input[i]]. *)
Definition scan_char (st : list value * nat) (c : ascii)
  : outcome (list value * nat) :=
  let '(temp, tempIndex) := st in
  let token := String c EmptyString in
  if negb (isNaN (Str token)) then
    v ← concat (array_get temp (Z.of_nat tempIndex)) token;
    mret (array_set temp tempIndex v, tempIndex)
  else
    let tempIndex := S tempIndex in
    mret (array_set temp tempIndex (Str token), S tempIndex).

(** Body of the third loop of [makeString]. *)
Definition emit (stream : Queue) (token : value) : outcome Queue :=
  if strict_neq token (Str "") then mret (Queue.enqueue stream token)
  else mret stream.

Definition makeString (input : string) (this : ShuntingYard)
  : outcome ShuntingYard :=
  let temp := repeat (Str "") (String.length input) in
  let tempIndex := O in
  '(temp, _) ← for_each scan_char (list_ascii_of_string input)
                 (temp, tempIndex);
  stream' ← for_each emit temp (stream this);
  mret (mkShuntingYard stream' (q this) (s this)).

Definition getPrecedence (op : value) : Z :=
  if strict_eq op (Str "+") || strict_eq op (Str "-") then 1
  else if strict_eq op (Str "*") || strict_eq op (Str "/") then 2
  else -1.

(** [this.q.enqueue(this.s.pop())] *)
Definition pop_to_output (this : ShuntingYard) : outcome ShuntingYard :=
  let '(v, s') := Stack.pop (s this) in
  mret (mkShuntingYard (stream this) (Queue.enqueue (q this) v) s').

(** Body of the first loop of [compute_infix]. *)
Definition infix_step (fuel : nat) (this : ShuntingYard)
  : outcome ShuntingYard :=
  let '(t, stream') := Queue.dequeue (stream this) in
  let this := mkShuntingYard stream' (q this) (s this) in
  if negb (isNaN t) then
    mret (mkShuntingYard (stream this) (Queue.enqueue (q this) t) (s this))
  else if strict_eq t (Str "(") then
    mret (mkShuntingYard (stream this) (q this) (Stack.push (s this) t))
  else if strict_eq t (Str ")") then
    this ← while fuel
             (fun this => strict_neq (Stack.peek (s this)) (Str "("))
             pop_to_output this;
    mret (mkShuntingYard (stream this) (q this) (snd (Stack.pop (s this))))
  else
    this ← while fuel
             (fun this =>
                negb (Stack.isEmpty (s this)) &&
                (getPrecedence t <=? getPrecedence (Stack.peek (s this))))
             pop_to_output this;
    mret (mkShuntingYard (stream this) (q this) (Stack.push (s this) t)).

Definition compute_infix (fuel : nat) (this : ShuntingYard)
  : outcome ShuntingYard :=
  this ← while fuel (fun this => negb (Queue.isEmpty (stream this)))
           (infix_step fuel) this;
  while fuel (fun this => negb (Stack.isEmpty (s this)))
    pop_to_output this.

(** Body of the loop of [compute_rpn]; [stack] is the local operand
    stack. *)
Definition rpn_step (st : ShuntingYard * Stack)
  : outcome (ShuntingYard * Stack) :=
  let '(this, stack) := st in
  let '(t, q') := Queue.dequeue (q this) in
  let this := mkShuntingYard (stream this) q' (s this) in
  if negb (isNaN t) then mret (this, Stack.push stack t)
  else
    let '(vb, stack) := Stack.pop stack in
    let b := parseFloat vb in
    let '(va, stack) := Stack.pop stack in
    let a := parseFloat va in
    if strict_eq t (Str "-") then
      mret (this, Stack.push stack (Str (toString (sub a b))))
    else if strict_eq t (Str "+") then
      mret (this, Stack.push stack (Str (toString (add a b))))
    else if strict_eq t (Str "*") then
      mret (this, Stack.push stack (Str (toString (mul a b))))
    else if strict_eq t (Str "/") then
      mret (this, Stack.push stack (Str (toString (div a b))))
    else mret (this, stack).

Definition compute_rpn (fuel : nat) (this : ShuntingYard)
  : outcome (number * ShuntingYard) :=
  let stack := Stack.new in
  '(this, stack) ← while fuel
                     (fun st => negb (Queue.isEmpty (q (fst st))))
                     rpn_step (this, stack);
  mret (parseFloat (fst (Stack.pop stack)), this).

End ShuntingYard.

(** ** The [calculate] driver *)

(** [output] is the text on the screen and [calculator] the engine. *)
Definition calculate (fuel : nat) (output : string)
  (calculator : ShuntingYard) : outcome (string * ShuntingYard) :=
  calculator ← ShuntingYard.makeString output calculator;
  calculator ← ShuntingYard.compute_infix fuel calculator;
  '(r, calculator) ← ShuntingYard.compute_rpn fuel calculator;
  let output := toString r in
  mret (output, ShuntingYard.clear calculator).

(** The three stages of [calculate] on a fresh engine, with the number
    returned by [compute_rpn]. *)
Definition evaluate (fuel : nat) (input : string) : outcome number :=
  calculator ← ShuntingYard.makeString input ShuntingYard.new;
  calculator ← ShuntingYard.compute_infix fuel calculator;
  '(r, _) ← ShuntingYard.compute_rpn fuel calculator;
  mret r.

(** An engine whose stream holds the given tokens, with empty output
    queue and operator stack. *)
Definition with_stream (l : list value) : ShuntingYard :=
  mkShuntingYard (mkQueue l) Queue.new Stack.new.

Import ShuntingYard.

(** * Vocabulary of the properties *)

(** ** States *)

(** The engine with the given stream, output queue and operator stack
    (arrays in index order: the top of the stack is the last element). *)
Definition state (strm out stk : list value) : ShuntingYard :=
  mkShuntingYard (mkQueue strm) (mkQueue out) (mkStack stk).

(** The top of [base], if any, has a precedence below [p]. *)
Definition low_top (p : Z) (base : list value) : Prop :=
  forall l v, base = l ++ [v] -> getPrecedence v < p.

(** ** Well-formed infix expressions *)

(** The grammar of infix expressions in which [*] and [/] bind tighter
    than [+] and [-] and operators of equal precedence associate to the
    left:  E ::= T | E addop T,  T ::= F | T mulop F,  F ::= n | ( E ),
    with addop one of [+], [-] and mulop one of [*], [/]. *)

Inductive addop := Plus | Minus.

Inductive mulop := Times | Divide.

Inductive E :=
| E_term (t : T)
| E_binary (l : E) (op : addop) (r : T)
with T :=
| T_factor (f : F)
| T_binary (l : T) (op : mulop) (r : F)
with F :=
| F_number (n : string)
| F_paren (e : E).

Scheme E_mut := Induction for E Sort Prop
  with T_mut := Induction for T Sort Prop
  with F_mut := Induction for F Sort Prop.

Combined Scheme expression_ind from E_mut, T_mut, F_mut.

Definition addop_symbol (op : addop) : string :=
  match op with Plus => "+" | Minus => "-" end.

Definition mulop_symbol (op : mulop) : string :=
  match op with Times => "*" | Divide => "/" end.

(** The token sequence of an expression. *)
Fixpoint tokens_E (e : E) : list value :=
  match e with
  | E_term t => tokens_T t
  | E_binary l op r => tokens_E l ++ Str (addop_symbol op) :: tokens_T r
  end
with tokens_T (t : T) : list value :=
  match t with
  | T_factor f => tokens_F f
  | T_binary l op r => tokens_T l ++ Str (mulop_symbol op) :: tokens_F r
  end
with tokens_F (f : F) : list value :=
  match f with
  | F_number n => [Str n]
  | F_paren e => Str "(" :: tokens_E e ++ [Str ")"]
  end.

(** Every number of the expression is a number token to the program:
    [isNaN] is false of it. *)
Fixpoint numeric_E (e : E) : bool :=
  match e with
  | E_term t => numeric_T t
  | E_binary l _ r => numeric_E l && numeric_T r
  end
with numeric_T (t : T) : bool :=
  match t with
  | T_factor f => numeric_F f
  | T_binary l _ r => numeric_T l && numeric_F r
  end
with numeric_F (f : F) : bool :=
  match f with
  | F_number n => negb (isNaN (Str n))
  | F_paren e => numeric_E e
  end.

(** The postfix form of an expression. *)
Fixpoint postfix_E (e : E) : list value :=
  match e with
  | E_term t => postfix_T t
  | E_binary l op r => postfix_E l ++ postfix_T r ++ [Str (addop_symbol op)]
  end
with postfix_T (t : T) : list value :=
  match t with
  | T_factor f => postfix_F f
  | T_binary l op r => postfix_T l ++ postfix_F r ++ [Str (mulop_symbol op)]
  end
with postfix_F (f : F) : list value :=
  match f with
  | F_number n => [Str n]
  | F_paren e => postfix_E e
  end.

Definition apply_addop (op : addop) : number -> number -> number :=
  match op with Plus => add | Minus => sub end.

Definition apply_mulop (op : mulop) : number -> number -> number :=
  match op with Times => mul | Divide => div end.

(** What one trip through the operand stack does to a result: it is
    pushed as its decimal string and parsed when popped. *)
Definition through_string (x : number) : number :=
  parseFloat (Str (toString x)).

Section Reference.

(** What happens to the result of each operation before it is used. *)
Variable norm : number -> number.

(** The reference infix evaluator, on the parse tree. *)
Fixpoint eval_E (e : E) : number :=
  match e with
  | E_term t => eval_T t
  | E_binary l op r => norm (apply_addop op (eval_E l) (eval_T r))
  end
with eval_T (t : T) : number :=
  match t with
  | T_factor f => eval_F f
  | T_binary l op r => norm (apply_mulop op (eval_T l) (eval_F r))
  end
with eval_F (f : F) : number :=
  match f with
  | F_number n => parseFloat (Str n)
  | F_paren e => eval_E e
  end.

(** The operation of an operator token. *)
Definition binary_operation (t : value) : option (number -> number -> number) :=
  if strict_eq t (Str "-") then Some sub
  else if strict_eq t (Str "+") then Some add
  else if strict_eq t (Str "*") then Some mul
  else if strict_eq t (Str "/") then Some div
  else None.

(** A postfix sequence run on a stack of numbers (top first). *)
Fixpoint run_postfix (post : list value) (stk : list number) : list number :=
  match post with
  | [] => stk
  | t :: post' =>
      if negb (isNaN t) then run_postfix post' (parseFloat t :: stk)
      else
        match binary_operation t, stk with
        | Some f, b :: a :: stk' => run_postfix post' (norm (f a b) :: stk')
        | _, _ => run_postfix post' stk
        end
  end.

End Reference.

(** The reference evaluator on doubles. *)
Definition reference : E -> number := eval_E (fun x => x).

(** The reference evaluator that sends each intermediate result through
    its decimal string. *)
Definition reference_through_string : E -> number := eval_E through_string.

(** The condition of the first loop of [compute_infix]. *)
Definition more_input (this : ShuntingYard) : bool :=
  negb (Queue.isEmpty (stream this)).

(** Where the first loop stands after the tokens of an expression: the
    operators still on the stack above [base] are [pend]. *)
Definition converts (fuel : nat) (tokens post : list value) (p : Z) : Prop :=
  forall k rest out base,
    (length tokens < fuel)%nat ->
    low_top p base ->
    exists out' pend,
      while (length tokens + k) more_input (infix_step fuel)
        (state (tokens ++ rest) out base)
      = while k more_input (infix_step fuel) (state rest out' (base ++ pend))
      /\ out' ++ rev pend = out ++ post
      /\ Forall (fun v => p <= getPrecedence v) pend
      /\ (length pend <= length tokens)%nat.

(** The condition of the loop of [compute_rpn]. *)
Definition more_output (st : ShuntingYard * Stack) : bool :=
  negb (Queue.isEmpty (q (fst st))).

(** The evaluator state: engine with output queue [out], operand stack
    [stk]. *)
Definition rpn_state (strm : Queue) (out : list value) (ops : Stack)
  (stk : list value) : ShuntingYard * Stack :=
  (mkShuntingYard strm (mkQueue out) ops, mkStack stk).

(** The string that stands on the operand stack for an expression. *)
Fixpoint operand_E (e : E) : string :=
  match e with
  | E_term t => operand_T t
  | E_binary l op r =>
      toString (apply_addop op (parseFloat (Str (operand_E l)))
                  (parseFloat (Str (operand_T r))))
  end
with operand_T (t : T) : string :=
  match t with
  | T_factor f => operand_F f
  | T_binary l op r =>
      toString (apply_mulop op (parseFloat (Str (operand_T l)))
                  (parseFloat (Str (operand_F r))))
  end
with operand_F (f : F) : string :=
  match f with
  | F_number n => n
  | F_paren e => operand_E e
  end.

(** [compute_infix] and then [compute_rpn] on an engine whose stream
    holds [tokens]; the number returned. *)
Definition convert_and_evaluate (fuel : nat) (tokens : list value)
  : outcome number :=
  this ← compute_infix fuel (with_stream tokens);
  '(r, _) ← compute_rpn fuel this;
  mret r.

(** Every intermediate result of the expression survives the trip
    through its decimal string. *)
Fixpoint stable_E (e : E) : bool :=
  match e with
  | E_term t => stable_T t
  | E_binary l op r =>
      stable_E l && stable_T r &&
      (let x := apply_addop op (eval_E (fun x => x) l) (eval_T (fun x => x) r) in
       JSNumber.eqb (through_string x) x)
  end
with stable_T (t : T) : bool :=
  match t with
  | T_factor f => stable_F f
  | T_binary l op r =>
      stable_T l && stable_F r &&
      (let x := apply_mulop op (eval_T (fun x => x) l) (eval_F (fun x => x) r) in
       JSNumber.eqb (through_string x) x)
  end
with stable_F (f : F) : bool :=
  match f with
  | F_number _ => true
  | F_paren e => stable_E e
  end.

(** The expression [1 / (0 * (1 - 2))]. *)
Definition negative_zero_divisor : E :=
  E_term
    (T_binary (T_factor (F_number "1")) Divide
       (F_paren
          (E_term
             (T_binary (T_factor (F_number "0")) Times
                (F_paren
                   (E_binary (E_term (T_factor (F_number "1"))) Minus
                      (T_factor (F_number "2")))))))).

(** The expression [12 + 3 * (4 - 1)]. *)
Definition sample_expression : E :=
  E_binary (E_term (T_factor (F_number "12"))) Plus
    (T_binary (T_factor (F_number "3")) Times
       (F_paren
          (E_binary (E_term (T_factor (F_number "4"))) Minus
             (T_factor (F_number "1"))))).

(** The four operator symbols of the [switch] of [compute_rpn]. *)
Definition operator_symbols : list string := ["-"; "+"; "*"; "/"].

(** ** Vocabulary of the further properties *)

(** A token that [compute_infix] and [compute_rpn] take for a number. *)
Definition is_number_token (v : value) : bool := negb (isNaN v).

(** A character that [makeString] appends to the number in progress. *)
Definition numeric_char (c : ascii) : bool :=
  negb (isNaN (Str (String c EmptyString))).

(** How many characters of [l] [makeString] takes for operators. *)
Definition operator_count (l : list ascii) : nat :=
  length (List.filter (fun c => negb (numeric_char c)) l).

(** The string tokens of [l], concatenated in order. *)
Fixpoint spelled (l : list value) : string :=
  match l with
  | [] => ""
  | Str x :: l' => x +:+ spelled l'
  | undefined :: l' => spelled l'
  end.

(** A non-empty text whose characters are all numeric. *)
Definition number_text (d : string) : bool :=
  negb (String.eqb d "") && forallb numeric_char (list_ascii_of_string d).

(** A single character that is not numeric. *)
Definition operator_text (o : string) : bool :=
  match o with
  | String c EmptyString => negb (numeric_char c)
  | _ => false
  end.

(** Number texts separated by single operator characters:
    [d0 o1 d1 ... ok dk]. *)
Fixpoint alternating (ts : list value) : bool :=
  match ts with
  | [Str d] => number_text d
  | Str d :: Str o :: ts' =>
      number_text d && operator_text o && alternating ts'
  | _ => false
  end.

(** An expression without parentheses, over number texts. *)
Definition flat_F (f : F) : bool :=
  match f with
  | F_number n => number_text n
  | F_paren _ => false
  end.

Fixpoint flat_T (t : T) : bool :=
  match t with
  | T_factor f => flat_F f
  | T_binary l _ r => flat_T l && flat_F r
  end.

Fixpoint flat_E (e : E) : bool :=
  match e with
  | E_term t => flat_T t
  | E_binary l _ r => flat_E l && flat_T r
  end.

(** What the converter keeps while it works on the tokens [ts]: the
    operator stack holds no number and no [")"], the output queue no
    [")"], and the numbers of the output queue followed by those still
    in the stream are the numbers of [ts], in order. *)
Definition converting (ts : list value) (this : ShuntingYard) : Prop :=
  Forall (fun v => isNaN v = true /\ v <> Str ")") (stack_array (s this)) /\
  (Str ")" ∉ queue_array (q this)) /\
  (List.filter is_number_token (queue_array (q this)) ++
   List.filter is_number_token (queue_array (stream this)))
  = List.filter is_number_token ts.

(** The state of the scanning loop of [makeString] on an input of
    length [n]: either [tempIndex] points at the text in progress, with
    only empty texts after it up to [n], or it points just past the end
    of [temp]. *)
Definition scanning (n : nat) (temp : list value) (tempIndex : nat) : Prop :=
  ((tempIndex < n)%nat /\
   exists front x,
     temp = front ++ Str x :: repeat (Str "") (n - tempIndex - 1) /\
     length front = tempIndex) \/
  ((n <= tempIndex)%nat /\ tempIndex = length temp).

(** * Properties *)

(** ** Containers *)

Section Containers.

Implicit Types (l : list value) (v : value).

Lemma stack_pop_push l v :
  Stack.pop (mkStack (l ++ [v])) = (v, mkStack l).
Proof.
  unfold Stack.pop, Stack.isEmpty; cbn [stack_array].
  rewrite length_app, Nat.add_comm; cbn.
  by rewrite last_last, removelast_last.
Qed.

Lemma stack_pop_empty : Stack.pop (mkStack []) = (undefined, mkStack []).
Proof. reflexivity. Qed.

Lemma stack_peek_push l v : Stack.peek (mkStack (l ++ [v])) = v.
Proof.
  unfold Stack.peek, array_get; cbn [stack_array].
  rewrite length_app, Nat.add_comm; cbn [length Nat.add].
  replace (Z.of_nat (S (length l)) - 1) with (Z.of_nat (length l)) by lia.
  destruct (Z.ltb_spec (Z.of_nat (length l)) 0) as [?|_]; [lia|].
  rewrite Nat2Z.id, lookup_app_r, Nat.sub_diag by lia. reflexivity.
Qed.

Lemma stack_peek_empty : Stack.peek (mkStack []) = undefined.
Proof. reflexivity. Qed.

Lemma stack_isEmpty_push l v : Stack.isEmpty (mkStack (l ++ [v])) = false.
Proof.
  unfold Stack.isEmpty; cbn [stack_array].
  by rewrite length_app, Nat.add_comm.
Qed.

Lemma stack_isEmpty_nil l : Stack.isEmpty (mkStack l) = true <-> l = [].
Proof.
  unfold Stack.isEmpty; cbn [stack_array].
  destruct l; cbn; split; congruence.
Qed.

Lemma queue_dequeue_cons l v :
  Queue.dequeue (mkQueue (v :: l)) = (v, mkQueue l).
Proof. reflexivity. Qed.

Lemma queue_isEmpty_nil l : Queue.isEmpty (mkQueue l) = true <-> l = [].
Proof.
  unfold Queue.isEmpty; cbn [queue_array].
  destruct l; cbn; split; congruence.
Qed.

End Containers.

(** ** Loops and fuel *)

Section Loops.

Context {St : Type}.
Implicit Types (cond : St -> bool) (body : St -> outcome St).

Lemma while_true fuel cond body st :
  cond st = true ->
  while (S fuel) cond body st = (st' ← body st; while fuel cond body st').
Proof. intros H; cbn. by rewrite H. Qed.

Lemma while_false fuel cond body st :
  cond st = false -> while (S fuel) cond body st = Normal st.
Proof. intros H; cbn. by rewrite H. Qed.

(** More fuel, and a body that returns at least where the other one
    does, return the same state. *)
Lemma while_mono cond body body' :
  (forall st st', body st = Normal st' -> body' st = Normal st') ->
  forall fuel fuel' st st',
    (fuel <= fuel')%nat ->
    while fuel cond body st = Normal st' ->
    while fuel' cond body' st = Normal st'.
Proof.
  intros Hbody fuel; induction fuel as [|fuel IH]; intros fuel' st st' Hle H.
  - discriminate.
  - destruct fuel' as [|fuel']; [lia|].
    cbn in *. destruct (cond st); [|done].
    destruct (body st) as [st1| |] eqn:Hb; try discriminate.
    rewrite (Hbody _ _ Hb). cbn in *. apply IH; [lia|done].
Qed.

(** The loop exits only in a state that fails the condition. *)
Lemma while_exit cond body fuel st st' :
  while fuel cond body st = Normal st' -> cond st' = false.
Proof.
  revert st; induction fuel as [|fuel IH]; intros st H; [discriminate|].
  cbn in H. destruct (cond st) eqn:Hc.
  - destruct (body st) as [st1| |]; try discriminate. by apply (IH st1).
  - by inversion H; subst.
Qed.

(** A loop whose body never throws does not throw. *)
Lemma while_no_throw cond body fuel st e :
  (forall st e, body st <> Throw e) ->
  while fuel cond body st <> Throw e.
Proof.
  intros Hbody; revert st; induction fuel as [|fuel IH]; intros st; [done|].
  cbn. destruct (cond st); [|done].
  destruct (body st) as [st1| |] eqn:Hb; cbn; [apply IH| |done].
  by destruct (Hbody st e0).
Qed.

End Loops.

Section LoopInvariant.

Context {St : Type} (P : St -> Prop).

(** A property kept by the body holds when the loop returns. *)
Lemma while_invariant (cond : St -> bool) (body : St -> outcome St) :
  (forall st st', P st -> body st = Normal st' -> P st') ->
  forall fuel st st',
    P st -> while fuel cond body st = Normal st' -> P st'.
Proof.
  intros Hbody fuel; induction fuel as [|fuel IH]; intros st st' HP H.
  - discriminate.
  - cbn in H. destruct (cond st).
    + destruct (body st) as [st1| |] eqn:Hb; try discriminate.
      cbn in H. eapply IH; [|exact H]. eauto.
    + by inversion H; subst.
Qed.

End LoopInvariant.

(** ** The converter: loops over the operator stack *)

Lemma pop_to_output_push strm out stk v :
  pop_to_output (state strm out (stk ++ [v])) =
  Normal (state strm (out ++ [v]) stk).
Proof.
  unfold pop_to_output, state; cbn [s q stream].
  by rewrite stack_pop_push.
Qed.

Lemma pop_to_output_empty strm out :
  pop_to_output (state strm out []) = Normal (state strm (out ++ [undefined]) []).
Proof. reflexivity. Qed.

Lemma pop_to_output_no_throw this e : pop_to_output this <> Throw e.
Proof. unfold pop_to_output. by destruct (Stack.pop (s this)). Qed.

Lemma pop_to_output_stream this this' :
  pop_to_output this = Normal this' -> stream this' = stream this.
Proof.
  unfold pop_to_output. destruct (Stack.pop (s this)).
  by intros [= <-].
Qed.

(** A loop [while (cond(this.s)) this.q.enqueue(this.s.pop())] whose
    condition holds on every stack with one of [pend] on top and fails
    on [base] moves [pend] to the output, top first. *)
Lemma drain (cond_s : Stack -> bool) (pend : list value) :
  (forall l v, v ∈ pend -> cond_s (mkStack (l ++ [v])) = true) ->
  forall fuel strm out base,
    (length pend < fuel)%nat ->
    cond_s (mkStack base) = false ->
    while fuel (fun this => cond_s (s this)) pop_to_output
      (state strm out (base ++ pend))
    = Normal (state strm (out ++ rev pend) base).
Proof.
  induction pend as [|v pend IH] using rev_ind; intros Hc fuel strm out base Hf Hb.
  - destruct fuel; [cbn in Hf; lia|].
    rewrite !app_nil_r. by apply while_false.
  - rewrite length_app in Hf; cbn in Hf.
    destruct fuel as [|fuel]; [lia|].
    rewrite app_assoc, while_true
      by (cbn [s state]; apply Hc, elem_of_app; right; by left).
    rewrite pop_to_output_push; cbn.
    rewrite IH; [|intros; apply Hc, elem_of_app; by left|lia|done].
    by rewrite rev_app_distr, <- app_assoc.
Qed.

(** With no ["("] anywhere on the stack, the loop of the [")"] branch
    empties the stack and then keeps enqueueing [undefined]: it uses up
    any amount of fuel. *)
Lemma close_paren_loop_diverges fuel :
  forall strm out stk,
    Forall (fun v => v <> Str "(") stk ->
    while fuel (fun this => strict_neq (Stack.peek (s this)) (Str "("))
      pop_to_output (state strm out stk) = OutOfFuel.
Proof.
  induction fuel as [|fuel IH]; intros strm out stk Hstk; [done|].
  destruct stk as [|v stk _] using rev_ind.
  - rewrite while_true by done.
    rewrite pop_to_output_empty; cbn. by apply IH.
  - apply Forall_app in Hstk as [Hstk Hv].
    rewrite while_true.
    + rewrite pop_to_output_push; cbn. by apply IH.
    + cbn [s state]. rewrite stack_peek_push.
      apply Forall_inv in Hv. unfold strict_neq.
      destruct v as [|x]; [done|]. cbn.
      destruct (String.eqb_spec x "("); [congruence|done].
Qed.

Lemma is_nan_close : isNaN (Str ")") = true.
Proof. reflexivity. Qed.

Lemma infix_step_unmatched_close fuel rest out stk :
  Forall (fun v => v <> Str "(") stk ->
  infix_step fuel (state (Str ")" :: rest) out stk) = OutOfFuel.
Proof.
  intros Hstk. unfold infix_step, state; cbn [stream q s].
  rewrite queue_dequeue_cons, is_nan_close; cbn [negb strict_eq value_eqb].
  cbn [String.eqb Ascii.eqb Bool.eqb]. cbn [stream q s].
  fold (state rest out stk).
  by rewrite (close_paren_loop_diverges fuel rest out stk Hstk).
Qed.

Lemma compute_infix_unmatched_close fuel rest out stk :
  Forall (fun v => v <> Str "(") stk ->
  compute_infix fuel (state (Str ")" :: rest) out stk) = OutOfFuel.
Proof.
  intros Hstk. unfold compute_infix.
  destruct fuel as [|fuel]; [done|].
  rewrite while_true by done.
  by rewrite infix_step_unmatched_close.
Qed.

Lemma infix_step_no_throw fuel this e : infix_step fuel this <> Throw e.
Proof.
  unfold infix_step. destruct (Queue.dequeue (stream this)) as [t stream'].
  cbn [stream q s].
  repeat match goal with
         | |- context [if ?b then _ else _] => destruct b
         end; try done.
  - match goal with
    | |- context [while fuel ?c ?b ?st] =>
        pose proof (while_no_throw c b fuel st e pop_to_output_no_throw) as H;
        destruct (while fuel c b st)
    end; done.
  - match goal with
    | |- context [while fuel ?c ?b ?st] =>
        pose proof (while_no_throw c b fuel st e pop_to_output_no_throw) as H;
        destruct (while fuel c b st)
    end; done.
Qed.

Lemma compute_infix_no_throw fuel this e : compute_infix fuel this <> Throw e.
Proof.
  unfold compute_infix.
  match goal with
  | |- context [while fuel ?c ?b this] =>
      pose proof (while_no_throw c b fuel this e (infix_step_no_throw fuel)) as H;
      destruct (while fuel c b this) as [this1| |]
  end; try done.
  cbn. apply while_no_throw, pop_to_output_no_throw.
Qed.

(** When [compute_infix] returns, the stream and the operator stack are
    empty. *)
Lemma compute_infix_returns_empty fuel this this' :
  compute_infix fuel this = Normal this' ->
  queue_array (stream this') = [] /\ stack_array (s this') = [].
Proof.
  unfold compute_infix.
  destruct (while fuel _ (infix_step fuel) this) as [this1| |] eqn:H1;
    try discriminate.
  cbn. intros H2. split.
  - apply while_exit in H1. apply negb_false_iff in H1.
    assert (stream this' = stream this1) as ->.
    { revert H2. apply (while_invariant (fun st => stream st = stream this1));
        [|done].
      intros st st' Hst Hp. by rewrite (pop_to_output_stream _ _ Hp). }
    destruct (stream this1) as [l]. by apply queue_isEmpty_nil in H1.
  - apply while_exit in H2. apply negb_false_iff in H2.
    destruct (s this') as [l]. by apply stack_isEmpty_nil in H2.
Qed.

(** Once the input is exhausted, everything on the operator stack is
    moved to the output, top first, whatever it is. *)
Lemma compute_infix_flush fuel out stk :
  (length stk < fuel)%nat ->
  compute_infix fuel (state [] out stk) = Normal (state [] (out ++ rev stk) []).
Proof.
  intros Hf. unfold compute_infix.
  destruct fuel as [|fuel]; [lia|].
  rewrite while_false by done. cbn [mbind outcome_bind].
  apply (drain (fun st => negb (Stack.isEmpty st)) stk) with (base := []);
    [|done|done].
  intros l v _. by rewrite stack_isEmpty_push.
Qed.

(** ** The converter: one token *)

Lemma low_top_nil p : low_top p [].
Proof. intros l v H. by destruct l. Qed.

Lemma low_top_push p base v : getPrecedence v < p -> low_top p (base ++ [v]).
Proof. intros Hv l w H. by apply app_inj_tail in H as [_ <-]. Qed.

Lemma infix_step_number fuel t rest out stk :
  isNaN t = false ->
  infix_step fuel (state (t :: rest) out stk)
  = Normal (state rest (out ++ [t]) stk).
Proof.
  intros Ht. unfold infix_step, state; cbn [stream q s].
  by rewrite queue_dequeue_cons, Ht.
Qed.

Lemma infix_step_open fuel rest out stk :
  infix_step fuel (state (Str "(" :: rest) out stk)
  = Normal (state rest out (stk ++ [Str "("])).
Proof. reflexivity. Qed.

Lemma infix_step_close fuel rest out base pend :
  Forall (fun v => v <> Str "(") pend ->
  (length pend < fuel)%nat ->
  infix_step fuel (state (Str ")" :: rest) out (base ++ Str "(" :: pend))
  = Normal (state rest (out ++ rev pend) base).
Proof.
  intros Hpend Hf. unfold infix_step, state; cbn [stream q s].
  rewrite queue_dequeue_cons, is_nan_close; cbn [negb strict_eq value_eqb].
  cbn [String.eqb Ascii.eqb Bool.eqb]. cbn [stream q s].
  fold (state rest out (base ++ Str "(" :: pend)).
  replace (base ++ Str "(" :: pend) with ((base ++ [Str "("]) ++ pend)
    by (by rewrite <- app_assoc).
  rewrite (drain (fun st => strict_neq (Stack.peek st) (Str "(")) pend).
  - cbn [mbind outcome_bind mret outcome_ret state stream q s].
    by rewrite stack_pop_push.
  - intros l v Hv. rewrite stack_peek_push.
    rewrite Forall_forall in Hpend. specialize (Hpend v Hv).
    unfold strict_neq. destruct v as [|x]; [done|]. cbn.
    destruct (String.eqb_spec x "("); [congruence|done].
  - done.
  - by rewrite stack_peek_push.
Qed.

Lemma infix_step_operator fuel t rest out base pend :
  isNaN t = true -> t <> Str "(" -> t <> Str ")" ->
  Forall (fun v => getPrecedence t <= getPrecedence v) pend ->
  low_top (getPrecedence t) base ->
  (length pend < fuel)%nat ->
  infix_step fuel (state (t :: rest) out (base ++ pend))
  = Normal (state rest (out ++ rev pend) (base ++ [t])).
Proof.
  intros Ht Hopen Hclose Hpend Hbase Hf.
  unfold infix_step, state; cbn [stream q s].
  rewrite queue_dequeue_cons, Ht; cbn [negb]. cbn [stream q s].
  assert (strict_eq t (Str "(") = false) as ->.
  { destruct t as [|x]; [done|]. cbn.
    destruct (String.eqb_spec x "("); congruence. }
  assert (strict_eq t (Str ")") = false) as ->.
  { destruct t as [|x]; [done|]. cbn.
    destruct (String.eqb_spec x ")"); congruence. }
  fold (state rest out (base ++ pend)).
  rewrite (drain (fun st => negb (Stack.isEmpty st) &&
                            (getPrecedence t <=? getPrecedence (Stack.peek st)))
             pend).
  - reflexivity.
  - intros l v Hv. rewrite stack_isEmpty_push, stack_peek_push.
    rewrite Forall_forall in Hpend. specialize (Hpend v Hv).
    cbn. by apply Z.leb_le.
  - done.
  - destruct base as [|v base _] using rev_ind; [done|].
    rewrite stack_isEmpty_push, stack_peek_push. cbn.
    apply Z.leb_gt. by eapply Hbase.
Qed.

(** ** The converter on a well-formed expression *)

Lemma addop_facts op :
  isNaN (Str (addop_symbol op)) = true /\
  getPrecedence (Str (addop_symbol op)) = 1 /\
  Str (addop_symbol op) <> Str "(" /\ Str (addop_symbol op) <> Str ")".
Proof. by destruct op. Qed.

Lemma mulop_facts op :
  isNaN (Str (mulop_symbol op)) = true /\
  getPrecedence (Str (mulop_symbol op)) = 2 /\
  Str (mulop_symbol op) <> Str "(" /\ Str (mulop_symbol op) <> Str ")".
Proof. by destruct op. Qed.

Lemma convert_step fuel n t rest out stk this' :
  infix_step fuel (state (t :: rest) out stk) = Normal this' ->
  while (S n) more_input (infix_step fuel) (state (t :: rest) out stk)
  = while n more_input (infix_step fuel) this'.
Proof. intros H. rewrite while_true by done. by rewrite H. Qed.

Lemma low_top_weaken p p' base : p <= p' -> low_top p base -> low_top p' base.
Proof. intros Hp H l v Hb. specialize (H l v Hb). lia. Qed.

Lemma convert_prefix fuel :
  (forall e, numeric_E e = true ->
             converts fuel (tokens_E e) (postfix_E e) 1) /\
  (forall t, numeric_T t = true ->
             converts fuel (tokens_T t) (postfix_T t) 2) /\
  (forall f, numeric_F f = true ->
             forall k rest out base,
               (length (tokens_F f) < fuel)%nat ->
               while (length (tokens_F f) + k) more_input (infix_step fuel)
                 (state (tokens_F f ++ rest) out base)
               = while k more_input (infix_step fuel)
                   (state rest (out ++ postfix_F f) base)).
Proof.
  apply expression_ind.
  - (* E ::= T *)
    intros t IH Hn k rest out base Hf Hbase; cbn [tokens_E postfix_E] in *.
    destruct (IH Hn k rest out base Hf (low_top_weaken 1 2 base ltac:(lia) Hbase))
      as (out' & pend & Hrun & Hout & Hp & Hlen).
    exists out', pend. repeat split; try done.
    eapply Forall_impl; [exact Hp|]. intros v Hv; cbn beta in *; lia.
  - (* E ::= E addop T *)
    intros l IHl op r IHr Hn k rest out base Hf Hbase.
    cbn [tokens_E postfix_E numeric_E] in *.
    apply andb_true_iff in Hn as [Hnl Hnr].
    rewrite length_app in *; cbn [length] in *.
    destruct (addop_facts op) as (Hnan & Hprec & Hopen & Hclose).
    destruct (IHl Hnl (S (length (tokens_T r) + k))
                (Str (addop_symbol op) :: tokens_T r ++ rest) out base
                ltac:(lia) Hbase)
      as (out1 & pend1 & Hrun1 & Hout1 & Hp1 & Hlen1).
    assert (low_top 2 (base ++ [Str (addop_symbol op)])) as Hbase'
      by (apply low_top_push; lia).
    destruct (IHr Hnr k rest (out1 ++ rev pend1)
                (base ++ [Str (addop_symbol op)]) ltac:(lia) Hbase')
      as (out2 & pend2 & Hrun2 & Hout2 & Hp2 & Hlen2).
    exists out2, (Str (addop_symbol op) :: pend2).
    split; [|split; [|split]].
    + rewrite <- app_assoc; cbn [app].
      replace (length (tokens_E l) + S (length (tokens_T r)) + k)%nat
        with (length (tokens_E l) + S (length (tokens_T r) + k))%nat by lia.
      rewrite Hrun1.
      rewrite (convert_step fuel _ _ _ _ _
                 (state (tokens_T r ++ rest) (out1 ++ rev pend1)
                    (base ++ [Str (addop_symbol op)]))).
      * rewrite Hrun2. by rewrite <- app_assoc.
      * apply infix_step_operator; try done; rewrite ?Hprec; try done; lia.
    + cbn [rev]. rewrite app_assoc, Hout2, Hout1. by rewrite <- !app_assoc.
    + constructor; [lia|]. eapply Forall_impl; [exact Hp2|].
      intros v Hv; cbn beta in *; lia.
    + cbn [length]. lia.
  - (* T ::= F *)
    intros f IH Hn k rest out base Hf Hbase; cbn [tokens_T postfix_T] in *.
    exists (out ++ postfix_F f), []. rewrite !app_nil_r.
    split; [by apply IH|]. split; [done|]. split; [constructor|cbn; lia].
  - (* T ::= T mulop F *)
    intros l IHl op r IHr Hn k rest out base Hf Hbase.
    cbn [tokens_T postfix_T numeric_T] in *.
    apply andb_true_iff in Hn as [Hnl Hnr].
    rewrite length_app in *; cbn [length] in *.
    destruct (mulop_facts op) as (Hnan & Hprec & Hopen & Hclose).
    destruct (IHl Hnl (S (length (tokens_F r) + k))
                (Str (mulop_symbol op) :: tokens_F r ++ rest) out base
                ltac:(lia) Hbase)
      as (out1 & pend1 & Hrun1 & Hout1 & Hp1 & Hlen1).
    exists (out1 ++ rev pend1 ++ postfix_F r), [Str (mulop_symbol op)].
    split; [|split; [|split]].
    + rewrite <- app_assoc; cbn [app].
      replace (length (tokens_T l) + S (length (tokens_F r)) + k)%nat
        with (length (tokens_T l) + S (length (tokens_F r) + k))%nat by lia.
      rewrite Hrun1.
      rewrite (convert_step fuel _ _ _ _ _
                 (state (tokens_F r ++ rest) (out1 ++ rev pend1)
                    (base ++ [Str (mulop_symbol op)]))).
      * rewrite (IHr Hnr) by lia. by rewrite <- app_assoc.
      * apply infix_step_operator; try done; rewrite ?Hprec; try done; lia.
    + cbn [rev app]. rewrite (app_assoc out1), Hout1. by rewrite <- !app_assoc.
    + constructor; [lia|constructor].
    + cbn [length]. lia.
  - (* F ::= n *)
    intros n Hn k rest out base Hf; cbn [tokens_F postfix_F numeric_F] in *.
    apply negb_true_iff in Hn. cbn [length app Nat.add].
    apply convert_step. by apply infix_step_number.
  - (* F ::= ( E ) *)
    intros e IH Hn k rest out base Hf; cbn [tokens_F postfix_F numeric_F] in *.
    cbn [length] in Hf. rewrite length_app in Hf; cbn [length] in Hf.
    assert (low_top 1 (base ++ [Str "("])) as Hbase'
      by (by apply low_top_push).
    destruct (IH Hn (1 + k)%nat (Str ")" :: rest) out (base ++ [Str "("])
                ltac:(lia) Hbase')
      as (out1 & pend1 & Hrun1 & Hout1 & Hp1 & Hlen1).
    cbn [length app]. rewrite length_app; cbn [length].
    replace (S (length (tokens_E e) + 1) + k)%nat
      with (S (length (tokens_E e) + (1 + k)))%nat by lia.
    rewrite (convert_step fuel _ _ _ _ _ _ (infix_step_open fuel _ out base)).
    rewrite <- app_assoc; cbn [app]. rewrite Hrun1.
    cbn [Nat.add]. rewrite <- app_assoc; cbn [app].
    rewrite (convert_step fuel _ _ _ _ _ (state rest (out1 ++ rev pend1) base)).
    + by rewrite Hout1.
    + apply infix_step_close; [|lia].
      eapply Forall_impl; [exact Hp1|]. intros v Hv ->. cbn in Hv. lia.
Qed.

(** [compute_infix] turns the tokens of a well-formed expression into
    its postfix form. *)
Lemma compute_infix_expression fuel e :
  numeric_E e = true ->
  (length (tokens_E e) < fuel)%nat ->
  compute_infix fuel (with_stream (tokens_E e))
  = Normal (state [] (postfix_E e) []).
Proof.
  intros Hn Hf.
  destruct (proj1 (convert_prefix fuel) e Hn
              (fuel - length (tokens_E e))%nat [] [] [] Hf (low_top_nil 1))
    as (out & pend & Hrun & Hout & Hp & Hlen).
  rewrite app_nil_r in Hrun. cbn [app] in *.
  replace (length (tokens_E e) + (fuel - length (tokens_E e)))%nat
    with fuel in Hrun by lia.
  unfold compute_infix, with_stream. fold more_input.
  change (mkShuntingYard (mkQueue (tokens_E e)) Queue.new Stack.new)
    with (state (tokens_E e) [] []).
  rewrite Hrun.
  destruct (fuel - length (tokens_E e))%nat as [|k] eqn:Hk; [lia|].
  rewrite while_false by done. cbn [mbind outcome_bind].
  pose proof (compute_infix_flush fuel out pend ltac:(lia)) as Hflush.
  unfold compute_infix in Hflush.
  destruct fuel as [|fuel']; [lia|].
  rewrite while_false in Hflush by done. cbn [mbind outcome_bind] in Hflush.
  by rewrite Hflush, Hout.
Qed.

(** ** The evaluator *)

Lemma rpn_step_number strm t rest ops stk :
  isNaN t = false ->
  rpn_step (rpn_state strm (t :: rest) ops stk)
  = Normal (rpn_state strm rest ops (stk ++ [t])).
Proof.
  intros Ht. unfold rpn_step, rpn_state; cbn [stream q s].
  by rewrite queue_dequeue_cons, Ht.
Qed.

(** An operator pops the right operand [vb] first and the left operand
    [va] second, and pushes the string of [va op vb]. *)
Lemma rpn_step_addop strm op rest ops stk va vb :
  rpn_step (rpn_state strm (Str (addop_symbol op) :: rest) ops
              (stk ++ [va; vb]))
  = Normal (rpn_state strm rest ops
              (stk ++ [Str (toString (apply_addop op (parseFloat va)
                                        (parseFloat vb)))])).
Proof.
  unfold rpn_step, rpn_state; cbn [stream q s].
  rewrite queue_dequeue_cons.
  replace (stk ++ [va; vb]) with ((stk ++ [va]) ++ [vb])
    by (by rewrite <- app_assoc).
  rewrite !stack_pop_push. by destruct op.
Qed.

Lemma rpn_step_mulop strm op rest ops stk va vb :
  rpn_step (rpn_state strm (Str (mulop_symbol op) :: rest) ops
              (stk ++ [va; vb]))
  = Normal (rpn_state strm rest ops
              (stk ++ [Str (toString (apply_mulop op (parseFloat va)
                                        (parseFloat vb)))])).
Proof.
  unfold rpn_step, rpn_state; cbn [stream q s].
  rewrite queue_dequeue_cons.
  replace (stk ++ [va; vb]) with ((stk ++ [va]) ++ [vb])
    by (by rewrite <- app_assoc).
  rewrite !stack_pop_push. by destruct op.
Qed.

Lemma evaluate_step n strm t rest ops stk st' :
  rpn_step (rpn_state strm (t :: rest) ops stk) = Normal st' ->
  while (S n) more_output rpn_step (rpn_state strm (t :: rest) ops stk)
  = while n more_output rpn_step st'.
Proof. intros H. rewrite while_true by done. by rewrite H. Qed.

Lemma operand_value :
  (forall e, parseFloat (Str (operand_E e)) = eval_E through_string e) /\
  (forall t, parseFloat (Str (operand_T t)) = eval_T through_string t) /\
  (forall f, parseFloat (Str (operand_F f)) = eval_F through_string f).
Proof.
  apply expression_ind; cbn [operand_E operand_T operand_F eval_E eval_T eval_F];
    try done.
  - intros l IHl op r IHr. by rewrite <- IHl, <- IHr.
  - intros l IHl op r IHr. by rewrite <- IHl, <- IHr.
Qed.

Lemma evaluate_prefix :
  (forall e, numeric_E e = true ->
     forall k strm rest ops stk,
       while (length (postfix_E e) + k) more_output rpn_step
         (rpn_state strm (postfix_E e ++ rest) ops stk)
       = while k more_output rpn_step
           (rpn_state strm rest ops (stk ++ [Str (operand_E e)]))) /\
  (forall t, numeric_T t = true ->
     forall k strm rest ops stk,
       while (length (postfix_T t) + k) more_output rpn_step
         (rpn_state strm (postfix_T t ++ rest) ops stk)
       = while k more_output rpn_step
           (rpn_state strm rest ops (stk ++ [Str (operand_T t)]))) /\
  (forall f, numeric_F f = true ->
     forall k strm rest ops stk,
       while (length (postfix_F f) + k) more_output rpn_step
         (rpn_state strm (postfix_F f ++ rest) ops stk)
       = while k more_output rpn_step
           (rpn_state strm rest ops (stk ++ [Str (operand_F f)]))).
Proof.
  apply expression_ind;
    cbn [postfix_E postfix_T postfix_F numeric_E numeric_T numeric_F
         operand_E operand_T operand_F]; try done.
  - intros l IHl op r IHr Hn k strm rest ops stk.
    apply andb_true_iff in Hn as [Hnl Hnr].
    rewrite !length_app; cbn [length]. rewrite <- !app_assoc; cbn [app].
    replace (length (postfix_E l) + (length (postfix_T r) + 1) + k)%nat
      with (length (postfix_E l) + (length (postfix_T r) + S k))%nat by lia.
    rewrite (IHl Hnl), (IHr Hnr), <- app_assoc; cbn [app].
    apply evaluate_step, rpn_step_addop.
  - intros l IHl op r IHr Hn k strm rest ops stk.
    apply andb_true_iff in Hn as [Hnl Hnr].
    rewrite !length_app; cbn [length]. rewrite <- !app_assoc; cbn [app].
    replace (length (postfix_T l) + (length (postfix_F r) + 1) + k)%nat
      with (length (postfix_T l) + (length (postfix_F r) + S k))%nat by lia.
    rewrite (IHl Hnl), (IHr Hnr), <- app_assoc; cbn [app].
    apply evaluate_step, rpn_step_mulop.
  - intros n Hn k strm rest ops stk. apply negb_true_iff in Hn.
    cbn [length app Nat.add]. by apply evaluate_step, rpn_step_number.
Qed.

Lemma postfix_length :
  (forall e, (length (postfix_E e) <= length (tokens_E e))%nat) /\
  (forall t, (length (postfix_T t) <= length (tokens_T t))%nat) /\
  (forall f, (length (postfix_F f) <= length (tokens_F f))%nat).
Proof.
  apply expression_ind;
    cbn [postfix_E postfix_T postfix_F tokens_E tokens_T tokens_F]; intros;
    rewrite ?length_app; cbn [length]; rewrite ?length_app; cbn [length]; lia.
Qed.

(** [compute_rpn] on the postfix form of an expression returns the value
    of the reference evaluator that sends every intermediate result
    through its string. *)
Lemma compute_rpn_expression fuel e :
  numeric_E e = true ->
  (length (postfix_E e) < fuel)%nat ->
  compute_rpn fuel (state [] (postfix_E e) [])
  = Normal (reference_through_string e, ShuntingYard.new).
Proof.
  intros Hn Hf. unfold compute_rpn, state. fold more_output.
  change (mkShuntingYard (mkQueue []) (mkQueue (postfix_E e)) (mkStack []),
          Stack.new)
    with (rpn_state (mkQueue []) (postfix_E e) (mkStack []) []).
  pose proof (proj1 evaluate_prefix e Hn (fuel - length (postfix_E e))%nat
                (mkQueue []) [] (mkStack []) []) as Hrun.
  rewrite app_nil_r in Hrun. cbn [app] in Hrun.
  replace (length (postfix_E e) + (fuel - length (postfix_E e)))%nat
    with fuel in Hrun by lia.
  rewrite Hrun.
  destruct (fuel - length (postfix_E e))%nat as [|k] eqn:Hk; [lia|].
  rewrite while_false by done.
  cbn [mbind outcome_bind mret outcome_ret rpn_state].
  change [Str (operand_E e)] with ([] ++ [Str (operand_E e)]).
  rewrite stack_pop_push; cbn [fst].
  by rewrite (proj1 operand_value).
Qed.

(** The loop body of [compute_rpn] always returns, with one token less
    in the output queue. *)
Lemma rpn_step_returns st :
  exists st',
    rpn_step st = Normal st' /\
    queue_array (q (fst st')) = List.tl (queue_array (q (fst st))).
Proof.
  destruct st as [[strm [out] ops] stack].
  unfold rpn_step; cbn [q stream s].
  assert (exists t, Queue.dequeue (mkQueue out) = (t, mkQueue (List.tl out)))
    as [t ->] by (destruct out; by eexists).
  destruct (Stack.pop stack) as [vb stack1].
  destruct (Stack.pop stack1) as [va stack2].
  repeat match goal with
         | |- context [if ?b then _ else _] => destruct b
         end; by eexists.
Qed.

Lemma evaluate_loop_returns fuel :
  forall st,
    (length (queue_array (q (fst st))) < fuel)%nat ->
    exists st',
      while fuel more_output rpn_step st = Normal st' /\
      queue_array (q (fst st')) = [].
Proof.
  induction fuel as [|fuel IH]; intros st Hf; [lia|].
  destruct (queue_array (q (fst st))) as [|t out] eqn:Hq.
  - exists st. split; [|done]. apply while_false.
    unfold more_output. destruct (q (fst st)) as [l]; cbn in Hq; by subst.
  - destruct (rpn_step_returns st) as (st1 & Hstep & Hq1).
    rewrite Hq in Hq1; cbn [List.tl] in Hq1.
    destruct (IH st1) as (st' & Hrun & Hq');
      [rewrite Hq1; cbn [length] in Hf; lia|].
    exists st'. split; [|done].
    rewrite while_true.
    + by rewrite Hstep.
    + unfold more_output. destruct (q (fst st)) as [l]; cbn in Hq; by subst.
Qed.

(** ** More fuel returns the same result *)

Lemma outcome_bind_normal {A B} (m : outcome A) (f : A -> outcome B) b :
  m ≫= f = Normal b -> exists a, m = Normal a /\ f a = Normal b.
Proof. destruct m as [a| |]; cbn; try discriminate. by exists a. Qed.

Lemma infix_step_mono fuel fuel' this this' :
  (fuel <= fuel')%nat ->
  infix_step fuel this = Normal this' -> infix_step fuel' this = Normal this'.
Proof.
  intros Hle. unfold infix_step.
  destruct (Queue.dequeue (stream this)) as [t stream']. cbn [stream q s].
  repeat match goal with
         | |- context [if ?b then _ else _] => destruct b
         end; try done.
  - intros (this1 & H1 & H2)%outcome_bind_normal.
    by rewrite (while_mono _ _ _ (fun _ _ H => H) fuel fuel' _ _ Hle H1).
  - intros (this1 & H1 & H2)%outcome_bind_normal.
    by rewrite (while_mono _ _ _ (fun _ _ H => H) fuel fuel' _ _ Hle H1).
Qed.

Lemma compute_infix_mono fuel fuel' this this' :
  (fuel <= fuel')%nat ->
  compute_infix fuel this = Normal this' ->
  compute_infix fuel' this = Normal this'.
Proof.
  intros Hle. unfold compute_infix.
  intros (this1 & H1 & H2)%outcome_bind_normal.
  rewrite (while_mono _ (infix_step fuel) (infix_step fuel')
             (fun st st' => infix_step_mono fuel fuel' st st' Hle)
             fuel fuel' _ _ Hle H1).
  cbn [mbind outcome_bind].
  exact (while_mono _ _ _ (fun _ _ H => H) fuel fuel' _ _ Hle H2).
Qed.

Lemma compute_rpn_mono fuel fuel' this r :
  (fuel <= fuel')%nat ->
  compute_rpn fuel this = Normal r -> compute_rpn fuel' this = Normal r.
Proof.
  intros Hle. unfold compute_rpn.
  intros ([this1 stack] & H1 & H2)%outcome_bind_normal.
  by rewrite (while_mono _ _ _ (fun _ _ H => H) fuel fuel' _ _ Hle H1).
Qed.

Lemma evaluate_mono fuel fuel' input r :
  (fuel <= fuel')%nat ->
  evaluate fuel input = Normal r -> evaluate fuel' input = Normal r.
Proof.
  intros Hle. unfold evaluate.
  intros (c1 & -> & (c2 & H2 & ([r' c3] & H3 & H4)%outcome_bind_normal)
            %outcome_bind_normal)%outcome_bind_normal.
  cbn [mbind outcome_bind].
  rewrite (compute_infix_mono fuel fuel' _ _ Hle H2). cbn [mbind outcome_bind].
  by rewrite (compute_rpn_mono fuel fuel' _ _ Hle H3).
Qed.

Lemma calculate_mono fuel fuel' output calculator r :
  (fuel <= fuel')%nat ->
  calculate fuel output calculator = Normal r ->
  calculate fuel' output calculator = Normal r.
Proof.
  intros Hle. unfold calculate.
  intros (c1 & -> & (c2 & H2 & ([r' c3] & H3 & H4)%outcome_bind_normal)
            %outcome_bind_normal)%outcome_bind_normal.
  cbn [mbind outcome_bind].
  rewrite (compute_infix_mono fuel fuel' _ _ Hle H2). cbn [mbind outcome_bind].
  by rewrite (compute_rpn_mono fuel fuel' _ _ Hle H3).
Qed.

(** ** The tokenizer *)

Lemma array_set_lookup_eq (a : list value) i v : array_set a i v !! i = Some v.
Proof.
  unfold array_set. destruct (Nat.ltb_spec i (length a)).
  - by apply list_lookup_insert_eq.
  - rewrite lookup_app_r by lia.
    rewrite lookup_app_r by (rewrite repeat_length; lia).
    rewrite repeat_length. by rewrite Nat.sub_diag.
Qed.

Lemma array_set_lookup_ne (a : list value) i j v w :
  i <> j -> a !! j = Some w -> array_set a i v !! j = Some w.
Proof.
  intros Hij Hj. unfold array_set. destruct (Nat.ltb_spec i (length a)).
  - by rewrite list_lookup_insert_ne.
  - by apply lookup_app_l_Some.
Qed.

(** One character: the entries below [tempIndex] stay, [tempIndex] does
    not decrease, and a character that is not numeric is written below
    the new [tempIndex]. *)
Lemma scan_char_spec temp tempIndex c temp' tempIndex' :
  scan_char (temp, tempIndex) c = Normal (temp', tempIndex') ->
  (tempIndex <= tempIndex')%nat /\
  (forall j w, (j < tempIndex)%nat -> temp !! j = Some w -> temp' !! j = Some w) /\
  (isNaN (Str (String c EmptyString)) = true ->
   exists j, (j < tempIndex')%nat /\ temp' !! j = Some (Str (String c EmptyString))).
Proof.
  unfold scan_char.
  destruct (isNaN (Str (String c EmptyString))) eqn:Hnan; cbn [negb].
  - intros [= <- <-]. split; [lia|]. split.
    + intros j w Hj Hw. apply array_set_lookup_ne; [lia|done].
    + intros _. exists (S tempIndex). split; [lia|]. apply array_set_lookup_eq.
  - intros (v & Hv & [= <- <-])%outcome_bind_normal. split; [lia|]. split.
    + intros j w Hj Hw. apply array_set_lookup_ne; [lia|done].
    + done.
Qed.

Lemma scan_loop_spec chars :
  forall temp tempIndex temp' tempIndex',
    for_each scan_char chars (temp, tempIndex) = Normal (temp', tempIndex') ->
    (tempIndex <= tempIndex')%nat /\
    (forall j w, (j < tempIndex)%nat -> temp !! j = Some w ->
                 temp' !! j = Some w) /\
    (forall c, c ∈ chars -> isNaN (Str (String c EmptyString)) = true ->
               exists j, temp' !! j = Some (Str (String c EmptyString))).
Proof.
  induction chars as [|c chars IH]; intros temp tempIndex temp' tempIndex'.
  - intros [= <- <-]. split; [lia|]. split; [done|].
    intros c Hc. by apply elem_of_nil in Hc.
  - cbn [for_each].
    intros ([temp1 idx1] & Hstep & Hrest)%outcome_bind_normal.
    apply scan_char_spec in Hstep as (Hle1 & Hkeep1 & Hnew).
    apply IH in Hrest as (Hle2 & Hkeep2 & Hall).
    split; [lia|]. split.
    + intros j w Hj Hw. apply Hkeep2; [lia|]. by apply Hkeep1.
    + intros c' [->|Hc']%elem_of_cons Hnan.
      * destruct (Hnew Hnan) as (j & Hj & Hw). exists j. by apply Hkeep2.
      * by apply Hall.
Qed.

Lemma emit_spec strm v :
  emit strm v
  = Normal (if strict_neq v (Str "") then Queue.enqueue strm v else strm).
Proof. unfold emit. by destruct (strict_neq v (Str "")). Qed.

Lemma emit_loop_spec temp :
  forall strm,
    for_each emit temp strm
    = Normal (mkQueue (queue_array strm ++
                       filter (fun v => strict_neq v (Str "") = true) temp)).
Proof.
  induction temp as [|v temp IH]; intros [l]; cbn [for_each queue_array].
  - by rewrite filter_nil, app_nil_r.
  - rewrite emit_spec, filter_cons. cbn [mbind outcome_bind].
    rewrite IH. destruct (strict_neq v (Str "")) eqn:Hv.
    + cbn [Queue.enqueue queue_array].
      rewrite decide_True by done. by rewrite <- app_assoc.
    + cbn [queue_array]. by rewrite decide_False by congruence.
Qed.

(** Whenever [makeString] returns, every character of the input that is
    not numeric to [isNaN] stands in the stream as a token of its own. *)
Lemma makeString_tokens input this this' c :
  makeString input this = Normal this' ->
  c ∈ list_ascii_of_string input ->
  isNaN (Str (String c EmptyString)) = true ->
  Str (String c EmptyString) ∈ queue_array (stream this').
Proof.
  unfold makeString.
  intros ([temp idx] & Hscan & Hemit)%outcome_bind_normal Hc Hnan.
  rewrite emit_loop_spec in Hemit. cbn in Hemit. injection Hemit as <-.
  cbn [stream queue_array].
  apply scan_loop_spec in Hscan as (_ & _ & Hall).
  destruct (Hall c Hc Hnan) as (j & Hj).
  apply elem_of_app; right. apply list_elem_of_filter. split.
  - done.
  - by eapply list_elem_of_lookup_2.
Qed.

(** The characters that are numeric to [isNaN]: the decimal digits and
    the white space. *)
Lemma isNaN_char (c : ascii) :
  isNaN (Str (String c EmptyString))
  = negb (JSString.is_digit c || JSString.is_space c).
Proof.
  destruct c as [[] [] [] [] [] [] [] []]; vm_compute; reflexivity.
Qed.

(** ** Converter and evaluator together *)

Lemma eqb_eq (x y : number) : JSNumber.eqb x y = true -> x = y.
Proof.
  destruct x as [a|a| |a m e], y as [b|b| |b m' e']; cbn; try done.
  - by intros ->%Bool.eqb_prop.
  - by intros ->%Bool.eqb_prop.
  - intros [[->%Bool.eqb_prop ->%Pos.eqb_eq]%andb_true_iff ->%Z.eqb_eq]
      %andb_true_iff. done.
Qed.

Lemma stable_reference :
  (forall e, stable_E e = true ->
             eval_E through_string e = eval_E (fun x => x) e) /\
  (forall t, stable_T t = true ->
             eval_T through_string t = eval_T (fun x => x) t) /\
  (forall f, stable_F f = true ->
             eval_F through_string f = eval_F (fun x => x) f).
Proof.
  apply expression_ind;
    cbn [stable_E stable_T stable_F eval_E eval_T eval_F]; try done.
  - intros l IHl op r IHr [[Hl Hr]%andb_true_iff Hx%eqb_eq]%andb_true_iff.
    by rewrite (IHl Hl), (IHr Hr).
  - intros l IHl op r IHr [[Hl Hr]%andb_true_iff Hx%eqb_eq]%andb_true_iff.
    by rewrite (IHl Hl), (IHr Hr).
Qed.

Lemma convert_and_evaluate_expression (e : E) (fuel : nat) :
  numeric_E e = true ->
  (length (tokens_E e) < fuel)%nat ->
  convert_and_evaluate fuel (tokens_E e) = Normal (reference_through_string e).
Proof.
  intros Hn Hf. unfold convert_and_evaluate.
  rewrite (compute_infix_expression fuel e Hn Hf). cbn [mbind outcome_bind].
  rewrite (compute_rpn_expression fuel e Hn); [done|].
  pose proof (proj1 postfix_length e). lia.
Qed.

(** The value of the reference evaluator depends on the token sequence
    only: two well-formed expressions with the same tokens have the same
    postfix form, and the value is that of the postfix form. *)
Lemma run_postfix_expression norm :
  (forall e, numeric_E e = true -> forall rest stk,
     run_postfix norm (postfix_E e ++ rest) stk
     = run_postfix norm rest (eval_E norm e :: stk)) /\
  (forall t, numeric_T t = true -> forall rest stk,
     run_postfix norm (postfix_T t ++ rest) stk
     = run_postfix norm rest (eval_T norm t :: stk)) /\
  (forall f, numeric_F f = true -> forall rest stk,
     run_postfix norm (postfix_F f ++ rest) stk
     = run_postfix norm rest (eval_F norm f :: stk)).
Proof.
  apply expression_ind;
    cbn [postfix_E postfix_T postfix_F numeric_E numeric_T numeric_F
         eval_E eval_T eval_F]; try done.
  - intros l IHl op r IHr [Hl Hr]%andb_true_iff rest stk.
    rewrite <- !app_assoc, (IHl Hl), (IHr Hr). by destruct op.
  - intros l IHl op r IHr [Hl Hr]%andb_true_iff rest stk.
    rewrite <- !app_assoc, (IHl Hl), (IHr Hr). by destruct op.
  - intros n Hn rest stk. cbn [app run_postfix]. by rewrite Hn.
Qed.

Lemma reference_determined_by_tokens norm e e' :
  numeric_E e = true -> numeric_E e' = true ->
  tokens_E e = tokens_E e' ->
  eval_E norm e = eval_E norm e'.
Proof.
  intros Hn Hn' Htok.
  pose proof (compute_infix_expression _ e Hn (Nat.lt_succ_diag_r _)) as H.
  pose proof (compute_infix_expression _ e' Hn' (Nat.lt_succ_diag_r _)) as H'.
  rewrite Htok in H. rewrite H in H'. injection H' as Hpost.
  pose proof (proj1 (run_postfix_expression norm) e Hn [] []) as R.
  pose proof (proj1 (run_postfix_expression norm) e' Hn' [] []) as R'.
  rewrite app_nil_r in R, R'. rewrite Hpost, R' in R. cbn in R. congruence.
Qed.

(** The trip through the string keeps [NaN], the infinities and the
    positive zero, and turns the negative zero into the positive one. *)
Lemma through_string_special :
  through_string NaN = NaN /\
  through_string Infinity = Infinity /\
  through_string NegInfinity = NegInfinity /\
  through_string zero = zero /\
  through_string negzero = zero.
Proof. by repeat split. Qed.

(** [compute_rpn] does not touch the stream or the operator stack. *)
Lemma compute_rpn_keeps fuel this r this' :
  compute_rpn fuel this = Normal (r, this') ->
  stream this' = stream this /\ s this' = s this.
Proof.
  unfold compute_rpn.
  intros ([this1 stack] & Hrun & [= _ <-])%outcome_bind_normal.
  revert Hrun.
  apply (while_invariant
           (fun st => stream (fst st) = stream this /\ s (fst st) = s this));
    [|done].
  intros [th stk] st' [Hstream Hs] Hstep. cbn [fst] in *.
  unfold rpn_step in Hstep.
  destruct (Queue.dequeue (q th)) as [t q'].
  destruct (Stack.pop stk) as [vb stk1].
  destruct (Stack.pop stk1) as [va stk2].
  repeat match type of Hstep with
         | context [if ?b then _ else _] => destruct b
         end; by injection Hstep as <-.
Qed.

(** When [calculate] returns, every buffer of the engine is empty. *)
Lemma calculate_leaves_empty fuel output calculator output' calculator' :
  calculate fuel output calculator = Normal (output', calculator') ->
  queue_array (stream calculator') = [] /\
  q calculator' = Queue.new /\ s calculator' = Stack.new.
Proof.
  unfold calculate.
  intros (c1 & _ & (c2 & H2 & ([r c3] & H3 & [= _ <-])%outcome_bind_normal)
            %outcome_bind_normal)%outcome_bind_normal.
  apply compute_infix_returns_empty in H2 as [Hstream _].
  apply compute_rpn_keeps in H3 as [H3 _].
  cbn [clear stream q s]. by rewrite H3.
Qed.

(** * The properties of the specification *)

(** C1, as stated, fails: on the well-formed token sequence
    [1 / ( 0 * ( 1 - 2 ) )] the converter followed by the evaluator
    returns [Infinity], while the reference evaluator with the stated
    precedence and associativity returns [-Infinity]: the product
    [0 * -1] is the negative zero, which the operand stack holds as the
    string ["0"]. *)
Lemma roundtrip_loses_negative_zero :
  numeric_E negative_zero_divisor = true /\
  tokens_E negative_zero_divisor
  = map Str ["1"; "/"; "("; "0"; "*"; "("; "1"; "-"; "2"; ")"; ")"] /\
  convert_and_evaluate 12 (tokens_E negative_zero_divisor) = Normal Infinity /\
  reference negative_zero_divisor = NegInfinity /\
  convert_and_evaluate 12 (tokens_E negative_zero_divisor)
  <> Normal (reference negative_zero_divisor).
Proof. repeat split; try by vm_compute. Qed.

(** C1 (amended).  For every well-formed infix expression over number
    tokens, [compute_infix] followed by [compute_rpn] returns the value
    of the reference evaluator (in which [*] and [/] bind tighter than
    [+] and [-] and equal precedence associates to the left) that sends
    every intermediate result through its decimal string, as the operand
    stack does. *)
Theorem roundtrip_through_string (e : E) (fuel : nat) :
  numeric_E e = true ->
  (length (tokens_E e) < fuel)%nat ->
  convert_and_evaluate fuel (tokens_E e) = Normal (reference_through_string e).
Proof. apply convert_and_evaluate_expression. Qed.

Lemma roundtrip_through_string_witness :
  convert_and_evaluate 10 (tokens_E sample_expression)
  = Normal (reference_through_string sample_expression).
Proof.
  apply (roundtrip_through_string sample_expression 10);
    [reflexivity | cbn; lia].
Defined.

(** When every intermediate result survives the trip through its
    string, the result is that of the reference evaluator on doubles. *)
Corollary roundtrip_reference (e : E) (fuel : nat) :
  numeric_E e = true ->
  stable_E e = true ->
  (length (tokens_E e) < fuel)%nat ->
  convert_and_evaluate fuel (tokens_E e) = Normal (reference e).
Proof.
  intros Hn Hs Hf. rewrite (convert_and_evaluate_expression e fuel Hn Hf).
  unfold reference_through_string, reference.
  by rewrite (proj1 stable_reference e Hs).
Qed.

Example roundtrip_reference_sample :
  convert_and_evaluate 10 (tokens_E sample_expression) = Normal (of_Z 21).
Proof.
  rewrite (roundtrip_reference sample_expression 10);
    [by vm_compute|by vm_compute|by vm_compute|cbn; lia].
Qed.

(** C2: the code does not terminate on a [")"] that has no ["("] on the
    operator stack: whatever the fuel, [compute_infix] runs out of it on
    the stream [")"], also when the stream comes from [makeString]. *)
Theorem compute_infix_unmatched_close_diverges (fuel : nat) :
  compute_infix fuel (with_stream [Str ")"]) = OutOfFuel /\
  makeString ")" ShuntingYard.new = Normal (with_stream [Str ")"]) /\
  evaluate fuel ")" = OutOfFuel.
Proof.
  assert (compute_infix fuel (with_stream [Str ")"]) = OutOfFuel) as H
    by (by apply (compute_infix_unmatched_close fuel [] [] [])).
  split; [done|]. split; [done|].
  unfold evaluate.
  change (makeString ")" ShuntingYard.new) with (Normal (with_stream [Str ")"])).
  cbn [mbind outcome_bind]. by rewrite H.
Qed.

(** C3, as stated, fails: on the tokens of ["(1+2"] the converter raises
    nothing and returns, with the ["("] in the output queue. *)
Lemma unclosed_paren_no_error :
  compute_infix 5 (with_stream (map Str ["("; "1"; "+"; "2"]))
  = Normal (state [] (map Str ["1"; "2"; "+"; "("]) []) /\
  ~ exists e, compute_infix 5 (with_stream (map Str ["("; "1"; "+"; "2"]))
              = Throw e.
Proof. split; [reflexivity|]. intros [e He]. discriminate. Qed.

(** C3 (amended).  [compute_infix] raises no error: once the input is
    consumed, everything left on the operator stack, a ["("] included, is
    popped to the output queue, top first. *)
Theorem compute_infix_flushes_stack (fuel : nat) (out stk : list value) :
  (length stk < fuel)%nat ->
  compute_infix fuel (state [] out stk) = Normal (state [] (out ++ rev stk) [])
  /\ (forall this e, compute_infix fuel this <> Throw e).
Proof.
  intros Hf. split; [by apply compute_infix_flush|].
  intros this e. apply compute_infix_no_throw.
Qed.

Lemma compute_infix_flushes_stack_witness :
  compute_infix 3 (state [] [Str "1"; Str "2"] [Str "("; Str "+"])
  = Normal (state [] ([Str "1"; Str "2"] ++ rev [Str "("; Str "+"]) [])
  /\ (forall this e, compute_infix 3 this <> Throw e).
Proof.
  apply (compute_infix_flushes_stack 3 [Str "1"; Str "2"] [Str "("; Str "+"]).
  cbn; lia.
Defined.

(** C4, as stated, fails: on the tokens [+ 1] the converter yields the
    postfix [1 +], and the evaluator returns [NaN] and raises nothing. *)
Lemma leading_operator_no_error :
  compute_infix 3 (with_stream (map Str ["+"; "1"]))
  = Normal (state [] (map Str ["1"; "+"]) []) /\
  compute_rpn 3 (state [] (map Str ["1"; "+"]) [])
  = Normal (NaN, ShuntingYard.new) /\
  convert_and_evaluate 3 (map Str ["+"; "1"]) = Normal NaN.
Proof. repeat split; by vm_compute. Qed.

(** C4 (amended).  Popping from an empty operand stack returns
    [undefined], which [parseFloat] reads as [NaN]: an operator applied
    to an operand stack with fewer than two values raises nothing and
    pushes ["NaN"]. *)
Theorem operand_underflow_pushes_NaN (sym : string) (strm : Queue)
  (rest : list value) (ops : Stack) (stk : list value) :
  sym ∈ operator_symbols ->
  (length stk < 2)%nat ->
  Stack.pop Stack.new = (undefined, Stack.new) /\
  parseFloat undefined = NaN /\
  rpn_step (rpn_state strm (Str sym :: rest) ops stk)
  = Normal (rpn_state strm rest ops [Str "NaN"]).
Proof.
  intros Hsym Hlen. split; [done|]. split; [done|].
  assert (forall b, toString (sub NaN b) = "NaN" /\ toString (add NaN b) = "NaN" /\
                    toString (mul NaN b) = "NaN" /\ toString (div NaN b) = "NaN")
    as Hnan by (by intros []).
  unfold operator_symbols in Hsym.
  destruct stk as [|v [|w stk]]; [| |cbn in Hlen; lia].
  - repeat (apply elem_of_cons in Hsym as [->|Hsym]; [by vm_compute|]).
    by apply elem_of_nil in Hsym.
  - unfold rpn_step, rpn_state; cbn [stream q s].
    rewrite queue_dequeue_cons.
    change [v] with ([] ++ [v]). rewrite stack_pop_push, stack_pop_empty.
    change (parseFloat undefined) with NaN.
    destruct (Hnan (parseFloat v)) as (Hs & Ha & Hm & Hd).
    repeat (apply elem_of_cons in Hsym as [->|Hsym];
            [cbn; by rewrite ?Hs, ?Ha, ?Hm, ?Hd|]).
    by apply elem_of_nil in Hsym.
Qed.

Lemma operand_underflow_pushes_NaN_witness :
  Stack.pop Stack.new = (undefined, Stack.new) /\
  parseFloat undefined = NaN /\
  rpn_step (rpn_state Queue.new [Str "+"] Stack.new [Str "1"])
  = Normal (rpn_state Queue.new [] Stack.new [Str "NaN"]).
Proof.
  apply (operand_underflow_pushes_NaN "+" Queue.new [] Stack.new [Str "1"]).
  - unfold operator_symbols. apply elem_of_cons; right. apply elem_of_cons; by left.
  - cbn; lia.
Defined.

(** The string ["+1"] itself does not reach the evaluator: the
    tokenizer reads [temp[2]], past the end of [temp], and throws. *)
Lemma makeString_leading_operator_throws :
  makeString "+1" ShuntingYard.new = Throw TypeError.
Proof. reflexivity. Qed.

(** C5, as stated, fails: on ["2a"] the tokenizer raises nothing and
    enqueues the letter as a token. *)
Lemma letter_is_tokenized :
  makeString "2a" ShuntingYard.new = Normal (with_stream [Str "2"; Str "a"]).
Proof. reflexivity. Qed.

(** C5 (amended).  [makeString] rejects no character: whenever it
    returns, every character of the input that is neither a decimal digit
    nor white space, one of [+ - * / ( )] or not, stands in the stream as
    a one-character token. *)
Theorem makeString_accepts_any_character (input : string)
  (this this' : ShuntingYard) (c : ascii) :
  makeString input this = Normal this' ->
  c ∈ list_ascii_of_string input ->
  JSString.is_digit c = false ->
  JSString.is_space c = false ->
  Str (String c EmptyString) ∈ queue_array (stream this').
Proof.
  intros Hrun Hc Hd Hs. apply (makeString_tokens input this this' c Hrun Hc).
  by rewrite isNaN_char, Hd, Hs.
Qed.

Lemma makeString_accepts_any_character_witness :
  Str "a" ∈ queue_array (stream (with_stream [Str "2"; Str "a"])).
Proof.
  apply (makeString_accepts_any_character "2a" ShuntingYard.new
           (with_stream [Str "2"; Str "a"]) "a"%char).
  - reflexivity.
  - cbn. apply elem_of_cons; right. apply elem_of_cons; by left.
  - reflexivity.
  - reflexivity.
Defined.

(** C6.  ["5/0"] evaluates to positive infinity and raises nothing; in
    the evaluator a division by zero pushes the string of a value that
    is not finite: an infinity, or [NaN] when the dividend is zero or
    [NaN]. *)
Theorem division_by_zero_not_finite (fuel : nat) :
  (4 <= fuel)%nat ->
  evaluate fuel "5/0" = Normal Infinity /\
  calculate fuel "5/0" ShuntingYard.new = Normal ("Infinity", ShuntingYard.new) /\
  (forall strm rest ops stk va vb,
     is_zero (parseFloat vb) = true ->
     rpn_step (rpn_state strm (Str "/" :: rest) ops (stk ++ [va; vb]))
     = Normal (rpn_state strm rest ops
                 (stk ++ [Str (toString (div (parseFloat va) (parseFloat vb)))]))
     /\ is_finite (div (parseFloat va) (parseFloat vb)) = false
     /\ is_nan (div (parseFloat va) (parseFloat vb))
        = is_zero (parseFloat va) || is_nan (parseFloat va)).
Proof.
  intros Hf. split; [|split].
  - by apply (evaluate_mono 4 fuel).
  - by apply (calculate_mono 4 fuel).
  - intros strm rest ops stk va vb Hz. split; [apply (rpn_step_mulop _ Divide)|].
    destruct (parseFloat vb); try discriminate.
    by destruct (parseFloat va).
Qed.

Lemma division_by_zero_not_finite_witness :
  evaluate 4 "5/0" = Normal Infinity.
Proof.
  apply (division_by_zero_not_finite 4). lia.
Defined.

(** C7.  ["8-3-2"] evaluates to 3, not 7.  The converter pops the first
    [-] before it pushes the second (their precedences compare [<=]),
    which gives the postfix [8 3 - 2 -]; the evaluator pops the right
    operand first and the left one second and computes left minus right.
    On the postfix [8 3 2 - -], which keeping the first [-] on the stack
    would give, the evaluator returns 7. *)
Theorem subtraction_associates_left (fuel : nat) :
  (6 <= fuel)%nat ->
  evaluate fuel "8-3-2" = Normal (of_Z 3) /\
  calculate fuel "8-3-2" ShuntingYard.new = Normal ("3", ShuntingYard.new) /\
  of_Z 3 <> of_Z 7 /\
  makeString "8-3-2" ShuntingYard.new
  = Normal (with_stream (map Str ["8"; "-"; "3"; "-"; "2"])) /\
  compute_infix fuel (with_stream (map Str ["8"; "-"; "3"; "-"; "2"]))
  = Normal (state [] (map Str ["8"; "3"; "-"; "2"; "-"]) []) /\
  (getPrecedence (Str "-") <=? getPrecedence (Str "-")) = true /\
  (forall strm rest ops stk va vb,
     rpn_step (rpn_state strm (Str "-" :: rest) ops (stk ++ [va; vb]))
     = Normal (rpn_state strm rest ops
                 (stk ++ [Str (toString (sub (parseFloat va) (parseFloat vb)))])))
  /\ compute_rpn fuel (state [] (map Str ["8"; "3"; "2"; "-"; "-"]) [])
     = Normal (of_Z 7, ShuntingYard.new).
Proof.
  intros Hf. repeat split.
  - by apply (evaluate_mono 6 fuel).
  - by apply (calculate_mono 6 fuel).
  - discriminate.
  - by apply (compute_infix_mono 6 fuel).
  - intros strm rest ops stk va vb. apply (rpn_step_addop _ Minus).
  - by apply (compute_rpn_mono 6 fuel).
Qed.

Lemma subtraction_associates_left_witness :
  evaluate 6 "8-3-2" = Normal (of_Z 3).
Proof.
  apply (subtraction_associates_left 6). lia.
Defined.

(** C8.  On ["12+3*(4-1)"] the tokenizer gives
    [12 + 3 * ( 4 - 1 )], the converter gives [12 3 4 1 - * +], and the
    evaluator returns 21. *)
Theorem sample_pipeline (fuel : nat) :
  (10 <= fuel)%nat ->
  makeString "12+3*(4-1)" ShuntingYard.new
  = Normal (with_stream (map Str ["12"; "+"; "3"; "*"; "("; "4"; "-"; "1"; ")"]))
  /\ compute_infix fuel
       (with_stream (map Str ["12"; "+"; "3"; "*"; "("; "4"; "-"; "1"; ")"]))
     = Normal (state [] (map Str ["12"; "3"; "4"; "1"; "-"; "*"; "+"]) [])
  /\ compute_rpn fuel (state [] (map Str ["12"; "3"; "4"; "1"; "-"; "*"; "+"]) [])
     = Normal (of_Z 21, ShuntingYard.new)
  /\ evaluate fuel "12+3*(4-1)" = Normal (of_Z 21)
  /\ calculate fuel "12+3*(4-1)" ShuntingYard.new
     = Normal ("21", ShuntingYard.new).
Proof.
  intros Hf. repeat split.
  - by apply (compute_infix_mono 10 fuel).
  - by apply (compute_rpn_mono 10 fuel).
  - by apply (evaluate_mono 10 fuel).
  - by apply (calculate_mono 10 fuel).
Qed.

Lemma sample_pipeline_witness :
  evaluate 10 "12+3*(4-1)" = Normal (of_Z 21).
Proof.
  apply (sample_pipeline 10). lia.
Defined.

(** C9: [clear] does not empty the stream.  After [makeString("1+")]
    and [clear()] the stream still holds [1 +], and the next expression,
    ["2"], evaluates to 3; on a fresh engine it evaluates to 2.  What
    [clear] does empty are the output queue and the operator stack, and
    clearing twice is clearing once. *)
Theorem clear_keeps_stream :
  (forall this, stream (clear this) = stream this) /\
  (exists this,
     makeString "1+" ShuntingYard.new = Normal this /\
     queue_array (stream (clear this)) = [Str "1"; Str "+"] /\
     (this ← makeString "2" (clear this);
      this ← compute_infix 4 this;
      compute_rpn 4 this) = Normal (of_Z 3, ShuntingYard.new)) /\
  evaluate 4 "2" = Normal (of_Z 2) /\
  (forall this, q (clear this) = Queue.new /\ s (clear this) = Stack.new) /\
  (forall this, clear (clear this) = clear this).
Proof.
  split; [done|]. split; [|done].
  eexists. split; [reflexivity|]. split; by vm_compute.
Qed.

(** C10.  [compute_rpn] returns a number for every output queue, with
    enough fuel for its length, and empties the queue: popping the empty
    operand stack gives [undefined], [parseFloat] of [undefined] is
    [NaN], and a token that is neither a number nor one of the four
    operators pops twice and pushes nothing. *)
Theorem compute_rpn_total (fuel : nat) (this : ShuntingYard) :
  (length (queue_array (q this)) < fuel)%nat ->
  (exists r this',
     compute_rpn fuel this = Normal (r, this') /\
     queue_array (q this') = []) /\
  Stack.pop Stack.new = (undefined, Stack.new) /\
  parseFloat undefined = NaN /\
  (forall strm t rest ops stack,
     isNaN t = true ->
     (forall sym, sym ∈ operator_symbols -> t <> Str sym) ->
     rpn_step (mkShuntingYard strm (mkQueue (t :: rest)) ops, stack)
     = Normal (mkShuntingYard strm (mkQueue rest) ops,
               snd (Stack.pop (snd (Stack.pop stack))))).
Proof.
  intros Hf. split; [|split; [done|split; [done|]]].
  - unfold compute_rpn. fold more_output.
    destruct (evaluate_loop_returns fuel (this, Stack.new) Hf)
      as ([this' stack] & Hrun & Hq).
    rewrite Hrun. cbn [mbind outcome_bind mret outcome_ret].
    by eexists _, _.
  - intros strm t rest ops stack Ht Hsym.
    unfold rpn_step; cbn [stream q s].
    rewrite queue_dequeue_cons, Ht; cbn [negb].
    destruct (Stack.pop stack) as [vb stack1]. cbn [snd].
    destruct (Stack.pop stack1) as [va stack2]. cbn [snd].
    assert (forall sym, sym ∈ operator_symbols -> strict_eq t (Str sym) = false)
      as Hne.
    { intros sym Hin. specialize (Hsym sym Hin).
      destruct t as [|x]; [done|]. cbn.
      destruct (String.eqb_spec x sym); congruence. }
    unfold operator_symbols in Hne.
    by rewrite (Hne "-"), (Hne "+"), (Hne "*"), (Hne "/") by repeat constructor.
Qed.

Lemma compute_rpn_total_witness :
  exists r this',
    compute_rpn 3 (state [] [Str "1"; Str "+"] []) = Normal (r, this') /\
    queue_array (q this') = [].
Proof.
  apply (compute_rpn_total 3 (state [] [Str "1"; Str "+"] [])).
  cbn; lia.
Defined.


(** * Further properties of the code *)

(** ** Containers *)

(** X1.  [Stack] is last in, first out: after [push(v)], [pop] returns
    [v] and restores the stack, [peek] returns [v] and the stack is not
    empty; on the empty stack [pop] and [peek] return [undefined] and
    change nothing. *)
Theorem stack_last_in_first_out (this : Stack) (v : value) :
  Stack.pop (Stack.push this v) = (v, this) /\
  Stack.peek (Stack.push this v) = v /\
  Stack.isEmpty (Stack.push this v) = false /\
  Stack.pop Stack.new = (undefined, Stack.new) /\
  Stack.peek Stack.new = undefined /\
  (Stack.isEmpty this = true <-> this = Stack.new).
Proof.
  destruct this as [l]. unfold Stack.push; cbn [stack_array].
  rewrite stack_pop_push, stack_peek_push, stack_isEmpty_push.
  repeat split; try done.
  - by intros ->%stack_isEmpty_nil.
  - intros [= ->]. by apply stack_isEmpty_nil.
Qed.

(** X2.  [Queue] is first in, first out: after [enqueue(v)], [dequeue]
    returns the oldest element, which is [v] only when the queue was
    empty; on the empty queue [dequeue] returns [undefined] and changes
    nothing. *)
Theorem queue_first_in_first_out (this : Queue) (v : value) :
  Queue.dequeue (Queue.enqueue this v)
  = match queue_array this with
    | [] => (v, this)
    | x :: l => (x, Queue.enqueue (mkQueue l) v)
    end /\
  Queue.isEmpty (Queue.enqueue this v) = false /\
  Queue.dequeue Queue.new = (undefined, Queue.new) /\
  (Queue.isEmpty this = true <-> this = Queue.new).
Proof.
  destruct this as [l]. split; [by destruct l|]. split.
  - unfold Queue.isEmpty, Queue.enqueue; cbn [queue_array].
    by rewrite length_app, Nat.add_comm.
  - split; [done|]. split.
    + by intros ->%queue_isEmpty_nil.
    + intros [= ->]. by apply queue_isEmpty_nil.
Qed.

(** ** The converter *)

Lemma stack_pop_cases (this : Stack) :
  (stack_array this = [] /\ Stack.pop this = (undefined, this)) \/
  (exists l v, stack_array this = l ++ [v] /\ Stack.pop this = (v, mkStack l)).
Proof.
  destruct this as [l]. destruct l as [|v l _] using rev_ind.
  - by left.
  - right. exists l, v. by rewrite stack_pop_push.
Qed.

(** A loop that pops while a condition on a non-empty stack holds
    returns within as many iterations as the stack is high; what leaves
    the stack is in the output. *)
Lemma pop_loop_returns (cond_s : Stack -> bool) :
  (forall st, cond_s st = true -> Stack.isEmpty st = false) ->
  forall stk fuel strm out,
    (length stk < fuel)%nat ->
    exists out' stk',
      while fuel (fun this => cond_s (s this)) pop_to_output
        (state strm out stk) = Normal (state strm out' stk') /\
      (length stk' <= length stk)%nat /\
      (length out' + length stk' = length out + length stk)%nat.
Proof.
  intros Hcond stk. induction stk as [|v stk IH] using rev_ind;
    intros fuel strm out Hf.
  - destruct fuel as [|fuel]; [cbn in Hf; lia|].
    exists out, []. split; [|done]. apply while_false. cbn [s state].
    destruct (cond_s (mkStack [])) eqn:Hc; [|done].
    by apply Hcond in Hc.
  - rewrite length_app in Hf; cbn [length] in Hf.
    destruct fuel as [|fuel]; [lia|].
    destruct (cond_s (mkStack (stk ++ [v]))) eqn:Hc.
    + rewrite while_true by done. rewrite pop_to_output_push.
      cbn [mbind outcome_bind].
      destruct (IH fuel strm (out ++ [v]) ltac:(lia))
        as (out' & stk' & Hrun & Hlen & Hsum).
      exists out', stk'. split; [done|].
      rewrite !length_app in *; cbn [length] in *. lia.
    + exists out, (stk ++ [v]). split; [by apply while_false|done].
Qed.

Lemma strict_eq_false (t : value) (x : string) :
  t <> Str x -> strict_eq t (Str x) = false.
Proof.
  intros Ht. destruct t as [|y]; [done|]. cbn.
  destruct (String.eqb_spec y x); congruence.
Qed.

Lemma strict_eq_true (t : value) (x : string) :
  strict_eq t (Str x) = true -> t = Str x.
Proof.
  destruct t as [|y]; [done|]. cbn. by intros ->%String.eqb_eq.
Qed.

(** Any token but [")"] is processed within the fuel of the stack
    height, and ends up in the output queue or on the stack. *)
Lemma infix_step_returns fuel t rest out stk :
  t <> Str ")" ->
  (length stk < fuel)%nat ->
  exists out' stk',
    infix_step fuel (state (t :: rest) out stk) = Normal (state rest out' stk') /\
    (length stk' <= S (length stk))%nat /\
    (length out' + length stk' = S (length out + length stk))%nat.
Proof.
  intros Ht Hf.
  destruct (isNaN t) eqn:Hnan.
  - destruct (strict_eq t (Str "(")) eqn:Hopen.
    + apply strict_eq_true in Hopen as ->.
      exists out, (stk ++ [Str "("]). split; [apply infix_step_open|].
      rewrite length_app; cbn [length]. lia.
    + unfold infix_step, state; cbn [stream q s].
      rewrite queue_dequeue_cons, Hnan; cbn [negb]. cbn [stream q s].
      rewrite Hopen, (strict_eq_false t ")" Ht).
      fold (state rest out stk).
      destruct (pop_loop_returns
                  (fun st => negb (Stack.isEmpty st) &&
                             (getPrecedence t <=? getPrecedence (Stack.peek st)))
                  ltac:(by intros st [H%negb_true_iff _]%andb_true_iff)
                  stk fuel rest out Hf)
        as (out' & stk' & Hrun & Hlen & Hsum).
      rewrite Hrun. cbn [mbind outcome_bind mret outcome_ret state stream q s].
      exists out', (stk' ++ [t]). split; [done|].
      rewrite length_app; cbn [length]. lia.
  - exists (out ++ [t]), stk. split; [by apply infix_step_number|].
    rewrite length_app; cbn [length]. lia.
Qed.

Lemma convert_loop_returns fuel :
  forall strm k out stk,
    Str ")" ∉ strm ->
    (length strm + length stk < fuel)%nat ->
    exists out' stk',
      while (length strm + S k) more_input (infix_step fuel)
        (state strm out stk) = Normal (state [] out' stk') /\
      (length stk' <= length stk + length strm)%nat /\
      (length out' + length stk' = length out + length stk + length strm)%nat.
Proof.
  induction strm as [|t strm IH]; intros k out stk Hno Hf.
  - exists out, stk. split; [by apply while_false|cbn; lia].
  - cbn [length] in *. apply not_elem_of_cons in Hno as [Ht Hno].
    destruct (infix_step_returns fuel t strm out stk ltac:(congruence) ltac:(lia))
      as (out1 & stk1 & Hstep & Hlen1 & Hsum1).
    destruct (IH k out1 stk1 Hno ltac:(lia)) as (out' & stk' & Hrun & Hlen & Hsum).
    exists out', stk'. split; [|lia].
    cbn [Nat.add]. by rewrite (convert_step fuel _ _ _ _ _ _ Hstep).
Qed.

Lemma compute_infix_without_close (fuel : nat) (this : ShuntingYard) :
  Str ")" ∉ queue_array (stream this) ->
  (length (queue_array (stream this)) + length (stack_array (s this)) < fuel)%nat ->
  exists out,
    compute_infix fuel this = Normal (state [] out []) /\
    length out
    = (length (queue_array (q this)) + length (stack_array (s this)) +
       length (queue_array (stream this)))%nat.
Proof.
  destruct this as [[strm] [out] [stk]]; cbn [stream s q queue_array stack_array].
  intros Hno Hf. fold (state strm out stk).
  destruct (convert_loop_returns fuel strm (fuel - length strm - 1) out stk Hno Hf)
    as (out1 & stk1 & Hrun & Hlen & Hsum).
  replace (length strm + S (fuel - length strm - 1))%nat with fuel in Hrun by lia.
  unfold compute_infix. fold more_input. rewrite Hrun.
  cbn [mbind outcome_bind].
  exists (out1 ++ rev stk1). split.
  - apply (drain (fun st => negb (Stack.isEmpty st)) stk1) with (base := []);
      [|lia|done].
    intros l v _. by rewrite stack_isEmpty_push.
  - rewrite length_app, length_rev. lia.
Qed.



(** X4.  The [")"] token: when the entries [pend] above the topmost
    ["("] of the operator stack are within the fuel, the step moves them
    to the output, top first, and removes that ["("]; on a stack that
    holds no ["("] at all the step never returns. *)
Theorem close_paren_step (fuel : nat) (rest out base pend : list value) :
  Str "(" ∉ pend ->
  (length pend < fuel)%nat ->
  infix_step fuel (state (Str ")" :: rest) out (base ++ Str "(" :: pend))
  = Normal (state rest (out ++ rev pend) base) /\
  (forall fuel', infix_step fuel' (state (Str ")" :: rest) out pend) = OutOfFuel) /\
  (forall fuel', compute_infix fuel' (state (Str ")" :: rest) out pend) = OutOfFuel).
Proof.
  intros Hno Hf.
  assert (Forall (fun v => v <> Str "(") pend) as Hpend.
  { apply Forall_forall. intros v Hv ->. done. }
  split; [by apply infix_step_close|]. split.
  - intros fuel'. by apply infix_step_unmatched_close.
  - intros fuel'. by apply compute_infix_unmatched_close.
Qed.

Lemma close_paren_step_witness :
  infix_step 3 (state [Str ")"] [Str "1"; Str "2"] ([Str "*"] ++ Str "(" :: [Str "+"]))
  = Normal (state [] ([Str "1"; Str "2"] ++ rev [Str "+"]) [Str "*"]) /\
  (forall fuel', infix_step fuel' (state [Str ")"] [Str "1"; Str "2"] [Str "+"])
                 = OutOfFuel) /\
  (forall fuel', compute_infix fuel' (state [Str ")"] [Str "1"; Str "2"] [Str "+"])
                 = OutOfFuel).
Proof.
  apply (close_paren_step 3 [] [Str "1"; Str "2"] [Str "*"] [Str "+"]).
  - intros H. apply elem_of_cons in H as [H|H]; [discriminate|].
    by apply elem_of_nil in H.
  - cbn; lia.
Defined.

Lemma getPrecedence_lower_bound (v : value) : -1 <= getPrecedence v.
Proof.
  unfold getPrecedence.
  repeat match goal with
         | |- context [if ?b then _ else _] => destruct b
         end; lia.
Qed.

(** X5.  A token that is neither a number nor a parenthesis and has
    the precedence -1 of [getPrecedence]'s last branch (a letter, say, or
    [undefined]) makes the converter pop the whole operator stack to the
    output, every ["("] included, before it is pushed: the comparison
    [-1 <= -1] holds against parentheses too. *)
Theorem unknown_operator_flushes_stack (fuel : nat) (t : value)
  (rest out stk : list value) :
  isNaN t = true ->
  getPrecedence t = -1 ->
  t <> Str "(" -> t <> Str ")" ->
  (length stk < fuel)%nat ->
  infix_step fuel (state (t :: rest) out stk)
  = Normal (state rest (out ++ rev stk) [t]).
Proof.
  intros Hnan Hprec Hopen Hclose Hf.
  apply (infix_step_operator fuel t rest out [] stk); try done.
  - apply Forall_forall. intros v _. rewrite Hprec.
    apply getPrecedence_lower_bound.
  - apply low_top_nil.
Qed.

Lemma unknown_operator_flushes_stack_witness :
  infix_step 3 (state [Str "a"; Str "1"] [Str "2"] [Str "("; Str "+"])
  = Normal (state [Str "1"] ([Str "2"] ++ rev [Str "("; Str "+"]) [Str "a"]).
Proof.
  apply (unknown_operator_flushes_stack 3 (Str "a") [Str "1"] [Str "2"]
           [Str "("; Str "+"]); try done.
  cbn; lia.
Defined.

Lemma filter_number_snoc (l : list value) (v : value) :
  isNaN v = true ->
  List.filter is_number_token (l ++ [v]) = List.filter is_number_token l.
Proof.
  intros Hv. rewrite List.filter_app. cbn. unfold is_number_token at 2.
  rewrite Hv. cbn. apply app_nil_r.
Qed.

Lemma converting_pop ts this this' :
  converting ts this -> pop_to_output this = Normal this' -> converting ts this'.
Proof.
  destruct this as [[strm] [out] [stk]]. unfold converting, pop_to_output.
  cbn [stream q s queue_array stack_array].
  intros (Hstk & Hout & Hnum) Hpop.
  destruct (stack_pop_cases (mkStack stk)) as [[Hnil Hp]|(l & v & Hl & Hp)];
    cbn [stack_array] in *; rewrite Hp in Hpop; injection Hpop as <-;
    cbn [stream q s queue_array stack_array Queue.enqueue].
  - subst stk. split; [done|]. split.
    + intros [H|H%list_elem_of_singleton]%elem_of_app; [done|discriminate].
    + by rewrite filter_number_snoc.
  - subst stk. apply Forall_app in Hstk as [Hl [[Hv Hv'] _]%Forall_cons].
    split; [done|]. split.
    + intros [H|H%list_elem_of_singleton]%elem_of_app; [done|congruence].
    + by rewrite filter_number_snoc.
Qed.

Lemma converting_step fuel ts this this' :
  converting ts this -> infix_step fuel this = Normal this' ->
  converting ts this'.
Proof.
  destruct this as [[strm] [out] [stk]]. intros (Hstk & Hout & Hnum).
  cbn [stream q s queue_array stack_array] in *.
  assert (exists t strm',
             Queue.dequeue (mkQueue strm) = (t, mkQueue strm') /\
             List.filter is_number_token strm
             = List.filter is_number_token [t] ++ List.filter is_number_token strm')
    as (t & strm' & Hdeq & Hfilter).
  { destruct strm as [|t strm'].
    - by exists undefined, [].
    - exists t, strm'. split; [done|]. cbn. by destruct (is_number_token t). }
  unfold infix_step; cbn [stream q s]. rewrite Hdeq. cbn [stream q s].
  rewrite Hfilter in Hnum.
  destruct (isNaN t) eqn:Hnan; cbn [negb].
  - assert (converting ts (state strm' out stk)) as Hmid.
    { unfold converting, state; cbn [stream q s queue_array stack_array].
      split; [done|]. split; [done|].
      revert Hnum. cbn. unfold is_number_token at 2. by rewrite Hnan. }
    destruct (strict_eq t (Str "(")) eqn:Hopen.
    + apply strict_eq_true in Hopen as ->. intros [= <-].
      destruct Hmid as (H1 & H2 & H3).
      unfold converting; cbn [stream q s queue_array stack_array Stack.push] in *.
      split; [|done]. apply Forall_app. split; [done|].
      by repeat constructor.
    + destruct (strict_eq t (Str ")")) eqn:Hclose.
      * intros (this1 & Hloop & [= <-])%outcome_bind_normal.
        apply (while_invariant (converting ts) _ _ (converting_pop ts)) in Hloop;
          [|exact Hmid].
        destruct this1 as [[strm1] [out1] [stk1]].
        destruct Hloop as (H1 & H2 & H3).
        unfold converting; cbn [stream q s queue_array stack_array] in *.
        split; [|done].
        destruct (stack_pop_cases (mkStack stk1)) as [[Hnil ->]|(l & v & Hl & ->)];
          cbn [stack_array snd] in *; [done|].
        subst stk1. by apply Forall_app in H1 as [H1 _].
      * intros (this1 & Hloop & [= <-])%outcome_bind_normal.
        apply (while_invariant (converting ts) _ _ (converting_pop ts)) in Hloop;
          [|exact Hmid].
        destruct Hloop as (H1 & H2 & H3).
        unfold converting; cbn [stream q s queue_array stack_array Stack.push] in *.
        split; [|done]. apply Forall_app. split; [done|].
        constructor; [|constructor]. split; [done|].
        intros ->. discriminate.
  - intros [= <-].
    unfold converting; cbn [stream q s queue_array stack_array Queue.enqueue].
    split; [done|]. split.
    + intros [H|H%list_elem_of_singleton]%elem_of_app; [done|].
      subst t. discriminate.
    + rewrite List.filter_app, <- app_assoc. exact Hnum.
Qed.

(** X6.  The converter keeps the numbers in their order and never
    emits a [")"]: when [compute_infix] returns on a stream of tokens,
    the number tokens of the output queue are those of the stream, in the
    same order, and no token of the output queue is [")"]. *)
Theorem compute_infix_keeps_operands (fuel : nat) (ts : list value)
  (this' : ShuntingYard) :
  compute_infix fuel (with_stream ts) = Normal this' ->
  List.filter is_number_token (queue_array (q this'))
  = List.filter is_number_token ts /\
  Str ")" ∉ queue_array (q this').
Proof.
  intros Hrun.
  pose proof (compute_infix_returns_empty _ _ _ Hrun) as [Hstream _].
  unfold compute_infix in Hrun.
  apply outcome_bind_normal in Hrun as (this1 & H1 & H2).
  apply (while_invariant (converting ts) _ _ (converting_step fuel ts)) in H1.
  - apply (while_invariant (converting ts) _ _ (converting_pop ts)) in H2;
      [|exact H1].
    destruct H2 as (_ & Hout & Hnum). rewrite Hstream in Hnum. cbn in Hnum.
    by rewrite app_nil_r in Hnum.
  - unfold converting, with_stream; cbn. split; [done|]. split; [|done].
    apply not_elem_of_nil.
Qed.

Lemma compute_infix_keeps_operands_witness :
  List.filter is_number_token
    (queue_array (q (state [] (map Str ["1"; "2"; "+"; "("]) [])))
  = List.filter is_number_token (map Str ["("; "1"; "+"; "2"]) /\
  Str ")" ∉ queue_array (q (state [] (map Str ["1"; "2"; "+"; "("]) [])).
Proof.
  apply (compute_infix_keeps_operands 5 (map Str ["("; "1"; "+"; "2"])
           (state [] (map Str ["1"; "2"; "+"; "("]) [])).
  reflexivity.
Defined.

(** X7.  [compute_infix] turns the tokens of every well-formed infix
    expression over number tokens into the postfix form of the
    expression, and leaves the stream and the operator stack empty. *)
Theorem compute_infix_postfix (fuel : nat) (e : E) :
  numeric_E e = true ->
  (length (tokens_E e) < fuel)%nat ->
  compute_infix fuel (with_stream (tokens_E e))
  = Normal (state [] (postfix_E e) []).
Proof. apply compute_infix_expression. Qed.

Lemma compute_infix_postfix_witness :
  compute_infix 10 (with_stream (tokens_E sample_expression))
  = Normal (state [] (postfix_E sample_expression) []).
Proof.
  apply (compute_infix_postfix 10 sample_expression); [reflexivity|cbn; lia].
Defined.

(** ** The evaluator *)

Lemma evaluate_numbers (l : list value) :
  forall k strm ops stk,
    Forall (fun v => isNaN v = false) l ->
    while (length l + S k) more_output rpn_step (rpn_state strm l ops stk)
    = Normal (rpn_state strm [] ops (stk ++ l)).
Proof.
  induction l as [|t l IH]; intros k strm ops stk Hl.
  - rewrite app_nil_r. by apply while_false.
  - apply Forall_cons in Hl as [Ht Hl]. cbn [length Nat.add].
    rewrite (evaluate_step _ _ _ _ _ _ _ (rpn_step_number strm t l ops stk Ht)).
    rewrite (IH k strm ops (stk ++ [t]) Hl). by rewrite <- app_assoc.
Qed.

(** X8.  On an output queue of number tokens only, [compute_rpn]
    raises nothing and returns the last one, parsed: the operands left
    under the top of the operand stack are ignored; on the empty queue it
    returns [NaN]. *)
Theorem compute_rpn_numbers_only (fuel : nat) (strm : Queue) (l : list value)
  (ops : Stack) :
  Forall (fun v => isNaN v = false) l ->
  (length l < fuel)%nat ->
  compute_rpn fuel (mkShuntingYard strm (mkQueue l) ops)
  = Normal (parseFloat (List.last l undefined),
            mkShuntingYard strm Queue.new ops).
Proof.
  intros Hl Hf. unfold compute_rpn. fold more_output.
  change (mkShuntingYard strm (mkQueue l) ops, Stack.new)
    with (rpn_state strm l ops []).
  replace fuel with (length l + S (fuel - length l - 1))%nat at 1 by lia.
  rewrite (evaluate_numbers l _ strm ops [] Hl).
  cbn [mbind outcome_bind mret outcome_ret rpn_state app].
  destruct l as [|v l _] using rev_ind; [done|].
  by rewrite stack_pop_push, last_last.
Qed.

Lemma compute_rpn_numbers_only_witness :
  compute_rpn 3 (mkShuntingYard Queue.new (mkQueue [Str "1"; Str "2"]) Stack.new)
  = Normal (parseFloat (List.last [Str "1"; Str "2"] undefined),
            mkShuntingYard Queue.new Queue.new Stack.new).
Proof.
  apply (compute_rpn_numbers_only 3 Queue.new [Str "1"; Str "2"] Stack.new).
  - by repeat constructor.
  - cbn; lia.
Defined.

(** X9.  [compute_rpn] consumes the output queue and nothing else: when
    it returns, the output queue is empty and the stream and the
    operator stack are as they were. *)
Theorem compute_rpn_frame (fuel : nat) (this this' : ShuntingYard) (r : number) :
  compute_rpn fuel this = Normal (r, this') ->
  this' = mkShuntingYard (stream this) Queue.new (s this).
Proof.
  intros Hrun.
  pose proof (compute_rpn_keeps _ _ _ _ Hrun) as [Hstream Hs].
  unfold compute_rpn in Hrun.
  apply outcome_bind_normal in Hrun as ([this1 stack] & Hloop & [= _ <-]).
  apply while_exit in Hloop. cbn [fst] in Hloop.
  apply negb_false_iff in Hloop.
  destruct this1 as [strm1 [out1] ops1]. cbn [stream s q] in *.
  apply queue_isEmpty_nil in Hloop. by subst.
Qed.

Lemma compute_rpn_frame_witness :
  state [] [] [Str "("]
  = mkShuntingYard (stream (state [] [Str "1"; Str "+"] [Str "("])) Queue.new
      (s (state [] [Str "1"; Str "+"] [Str "("])).
Proof.
  apply (compute_rpn_frame 3 (state [] [Str "1"; Str "+"] [Str "("])
           (state [] [] [Str "("]) NaN).
  reflexivity.
Defined.

(** ** The driver *)

(** X10.  Whenever [calculate] returns, it leaves the engine with
    every buffer empty, whatever the buffers held before: the next
    calculation starts from a fresh engine. *)
Theorem calculate_resets_engine (fuel : nat) (output output' : string)
  (calculator calculator' : ShuntingYard) :
  calculate fuel output calculator = Normal (output', calculator') ->
  calculator' = ShuntingYard.new.
Proof.
  intros Hrun.
  apply calculate_leaves_empty in Hrun as (Hstream & Hq & Hs).
  destruct calculator' as [[strm] out ops]. cbn [stream q s queue_array] in *.
  by subst.
Qed.

Lemma calculate_resets_engine_witness :
  ShuntingYard.new = ShuntingYard.new.
Proof.
  apply (calculate_resets_engine 6 "1+2" "NaN"
           (state [] [Str "7"] [Str "("]) ShuntingYard.new).
  reflexivity.
Defined.

(** ** The tokenizer *)

Lemma append_cons (c : ascii) (x y : string) :
  String c x +:+ y = String c (x +:+ y).
Proof. reflexivity. Qed.

Lemma append_nil_r (x : string) : x +:+ "" = x.
Proof.
  induction x as [|c x IH]; [done|]. by rewrite append_cons, IH.
Qed.

Lemma append_assoc (x y z : string) : (x +:+ y) +:+ z = x +:+ (y +:+ z).
Proof.
  induction x as [|c x IH]; [done|]. by rewrite !append_cons, IH.
Qed.

Lemma chars_append (x y : string) :
  list_ascii_of_string (x +:+ y)
  = list_ascii_of_string x ++ list_ascii_of_string y.
Proof.
  induction x as [|c x IH]; [done|].
  rewrite append_cons. cbn [list_ascii_of_string app]. by rewrite IH.
Qed.

Lemma chars_length (x : string) :
  String.length x = length (list_ascii_of_string x).
Proof. induction x as [|c x IH]; cbn; [done|by rewrite IH]. Qed.

Lemma text_of_chars_app (a b : list ascii) :
  string_of_list_ascii (a ++ b)
  = string_of_list_ascii a +:+ string_of_list_ascii b.
Proof.
  induction a as [|c a IH]; [done|].
  cbn [app string_of_list_ascii]. by rewrite append_cons, IH.
Qed.

Lemma spelled_app (a b : list value) :
  spelled (a ++ b) = spelled a +:+ spelled b.
Proof.
  induction a as [|[|x] a IH]; cbn [app spelled]; [done|done|].
  by rewrite IH, append_assoc.
Qed.

Lemma spelled_blanks m : spelled (repeat (Str "") m) = "".
Proof. induction m as [|m IH]; cbn; done. Qed.

Lemma for_each_app {A St} (body : St -> A -> outcome St) (a b : list A) st :
  for_each body (a ++ b) st = (st' ← for_each body a st; for_each body b st').
Proof.
  revert st. induction a as [|x a IH]; intros st; cbn; [done|].
  destruct (body st x) as [st1| |]; cbn; [apply IH|done|done].
Qed.

(** One character, when [tempIndex] points at the text in progress. *)
Lemma scan_numeric_in front x blanks c :
  numeric_char c = true ->
  scan_char (front ++ Str x :: blanks, length front) c
  = Normal (front ++ Str (x +:+ String c "") :: blanks, length front).
Proof.
  intros Hc. unfold scan_char. apply negb_true_iff in Hc. rewrite Hc. cbn [negb].
  unfold array_get. destruct (Z.ltb_spec (Z.of_nat (length front)) 0); [lia|].
  rewrite Nat2Z.id, list_lookup_middle by done.
  cbn [default from_option id concat mbind outcome_bind mret outcome_ret].
  unfold array_set. rewrite length_app; cbn [length].
  destruct (Nat.ltb_spec (length front) (length front + S (length blanks)));
    [|lia].
  rewrite insert_app_r_alt by lia. by rewrite Nat.sub_diag.
Qed.

Lemma scan_operator_in front x m c :
  numeric_char c = false ->
  scan_char (front ++ Str x :: repeat (Str "") m, length front) c
  = Normal (front ++ Str x :: Str (String c "") :: repeat (Str "") (m - 1),
            S (S (length front))).
Proof.
  intros Hc. unfold scan_char. apply negb_false_iff in Hc. rewrite Hc. cbn [negb].
  unfold array_set. rewrite length_app; cbn [length]. rewrite repeat_length.
  destruct m as [|m].
  - destruct (Nat.ltb_spec (S (length front)) (length front + 1)); [lia|].
    replace (S (length front) - (length front + 1))%nat with O by lia.
    cbn. by rewrite <- app_assoc.
  - destruct (Nat.ltb_spec (S (length front)) (length front + S (S m))); [|lia].
    rewrite insert_app_r_alt by lia.
    replace (S (length front) - length front)%nat with 1%nat by lia.
    cbn. by rewrite Nat.sub_0_r.
Qed.

(** One character, when [tempIndex] points past the end of [temp]. *)
Lemma scan_numeric_out temp c :
  numeric_char c = true ->
  scan_char (temp, length temp) c = Throw TypeError.
Proof.
  intros Hc. unfold scan_char. apply negb_true_iff in Hc. rewrite Hc. cbn [negb].
  unfold array_get. destruct (Z.ltb_spec (Z.of_nat (length temp)) 0); [lia|].
  by rewrite Nat2Z.id, lookup_ge_None_2.
Qed.

Lemma scan_operator_out temp c :
  numeric_char c = false ->
  scan_char (temp, length temp) c
  = Normal (temp ++ [undefined; Str (String c "")], S (S (length temp))).
Proof.
  intros Hc. unfold scan_char. apply negb_false_iff in Hc. rewrite Hc. cbn [negb].
  unfold array_set.
  destruct (Nat.ltb_spec (S (length temp)) (length temp)); [lia|].
  by replace (S (length temp) - length temp)%nat with 1%nat by lia.
Qed.

Lemma operator_count_cons c l :
  operator_count (c :: l)
  = ((if numeric_char c then 0 else 1) + operator_count l)%nat.
Proof. unfold operator_count. cbn. by destruct (numeric_char c). Qed.

(** The scanning loop of [makeString] on an input of length [n]. *)
Lemma scan_loop_outcome (n : nat) (chars : list ascii) :
  forall temp tempIndex,
    scanning n temp tempIndex ->
    match for_each scan_char chars (temp, tempIndex) with
    | Normal (temp', tempIndex') =>
        scanning n temp' tempIndex' /\
        spelled temp' = spelled temp +:+ string_of_list_ascii chars /\
        (forall pre c post,
            chars = pre ++ c :: post -> numeric_char c = true ->
            (tempIndex + 2 * operator_count pre < n)%nat)
    | Throw _ =>
        exists pre c post,
          chars = pre ++ c :: post /\ numeric_char c = true /\
          (n <= tempIndex + 2 * operator_count pre)%nat
    | OutOfFuel => False
    end.
Proof.
  induction chars as [|c chars IH]; intros temp idx Hscan.
  - cbn. split; [done|]. split; [by rewrite append_nil_r|].
    intros pre c post H. by destruct pre.
  - cbn [for_each].
    destruct (numeric_char c) eqn:Hc;
      destruct Hscan as [(Hlt & front & x & -> & <-)|(Hge & ->)].
    + (* a numeric character, appended to the text in progress *)
      rewrite scan_numeric_in by done. cbn [mbind outcome_bind].
      specialize (IH (front ++ Str (x +:+ String c "") ::
                        repeat (Str "") (n - length front - 1)) (length front)).
      destruct (for_each scan_char chars _) as [[temp' idx']| |].
      * destruct IH as (Hs & Hsp & Hpos); [left; eauto|].
        split; [done|]. split.
        -- rewrite Hsp, !spelled_app. cbn [spelled string_of_list_ascii].
           rewrite spelled_blanks, !append_nil_r, !append_assoc. done.
        -- intros pre c0 post Heq Hc0. destruct pre as [|c1 pre].
           ++ cbn. lia.
           ++ injection Heq as <- ->. rewrite operator_count_cons, Hc.
              by apply (Hpos pre c0 post).
      * destruct IH as (pre & c0 & post & -> & Hc0 & Hle); [left; eauto|].
        exists (c :: pre), c0, post. rewrite operator_count_cons, Hc. done.
      * destruct IH. left; eauto.
    + (* a numeric character past the end of [temp] *)
      rewrite scan_numeric_out by done. cbn [mbind outcome_bind].
      exists [], c, chars. cbn. split; [done|]. split; [done|lia].
    + (* an operator character, written after the text in progress *)
      rewrite scan_operator_in by done. cbn [mbind outcome_bind].
      specialize (IH (front ++ Str x :: Str (String c "") ::
                        repeat (Str "") (n - length front - 1 - 1))
                    (S (S (length front)))).
      assert (scanning n (front ++ Str x :: Str (String c "") ::
                            repeat (Str "") (n - length front - 1 - 1))
                (S (S (length front)))) as Hnext.
      { destruct (Nat.lt_ge_cases (S (S (length front))) n) as [Hin|Hout].
        - left. split; [done|].
          exists (front ++ [Str x; Str (String c "")]), "". split.
          + rewrite <- app_assoc. cbn [app]. do 3 f_equal.
            replace (n - length front - 1 - 1)%nat
              with (S (n - S (S (length front)) - 1)) by lia.
            done.
          + rewrite length_app. cbn. lia.
        - right. split; [done|].
          rewrite length_app. cbn [length]. rewrite repeat_length. lia. }
      assert (spelled (front ++ Str x :: Str (String c "") ::
                         repeat (Str "") (n - length front - 1 - 1))
              = spelled (front ++ Str x :: repeat (Str "") (n - length front - 1))
                +:+ String c "") as Hspell.
      { rewrite !spelled_app. cbn [spelled].
        rewrite !spelled_blanks, !append_nil_r, !append_assoc. done. }
      destruct (for_each scan_char chars _) as [[temp' idx']| |].
      * destruct (IH Hnext) as (Hs & Hsp & Hpos).
        split; [done|]. split.
        -- rewrite Hsp, Hspell, append_assoc. done.
        -- intros pre c0 post Heq Hc0. destruct pre as [|c1 pre].
           ++ injection Heq as <- _. congruence.
           ++ injection Heq as <- ->. rewrite operator_count_cons, Hc.
              specialize (Hpos pre c0 post eq_refl Hc0). lia.
      * destruct (IH Hnext) as (pre & c0 & post & -> & Hc0 & Hle).
        exists (c :: pre), c0, post. rewrite operator_count_cons, Hc.
        split; [done|]. split; [done|lia].
      * by destruct (IH Hnext).
    + (* an operator character past the end of [temp] *)
      rewrite scan_operator_out by done. cbn [mbind outcome_bind].
      specialize (IH (temp ++ [undefined; Str (String c "")])
                    (S (S (length temp)))).
      assert (scanning n (temp ++ [undefined; Str (String c "")])
                (S (S (length temp)))) as Hnext.
      { right. split; [lia|]. rewrite length_app. cbn. lia. }
      destruct (for_each scan_char chars _) as [[temp' idx']| |].
      * destruct (IH Hnext) as (Hs & Hsp & Hpos).
        split; [done|]. split.
        -- rewrite Hsp, spelled_app. cbn [spelled].
           rewrite !append_assoc. done.
        -- intros pre c0 post Heq Hc0. destruct pre as [|c1 pre].
           ++ injection Heq as <- _. congruence.
           ++ injection Heq as <- ->. rewrite operator_count_cons, Hc.
              specialize (Hpos pre c0 post eq_refl Hc0). lia.
      * destruct (IH Hnext) as (pre & c0 & post & -> & Hc0 & Hle).
        exists (c :: pre), c0, post. rewrite operator_count_cons, Hc.
        split; [done|]. split; [done|lia].
      * by destruct (IH Hnext).
Qed.

Lemma scanning_start n : scanning n (repeat (Str "") n) 0.
Proof.
  destruct n as [|n].
  - right. by split.
  - left. split; [lia|]. exists [], "". cbn. by rewrite Nat.sub_0_r.
Qed.

Lemma makeString_scan (input : string) (this : ShuntingYard) :
  makeString input this
  = ('(temp, _) ← for_each scan_char (list_ascii_of_string input)
                    (repeat (Str "") (String.length input), O);
     mret (mkShuntingYard
             (mkQueue (queue_array (stream this) ++
                       filter (fun v => strict_neq v (Str "") = true) temp))
             (q this) (s this))).
Proof.
  unfold makeString.
  destruct (for_each scan_char _ _) as [[temp idx]| |]; cbn; [|done|done].
  by rewrite emit_loop_spec.
Qed.

(** X11.  [makeString] throws a [TypeError] exactly when some numeric
    character (a digit or white space) has so many operator characters
    before it that twice their number reaches the length of the input:
    it then reads [temp[tempIndex]] past the end of [temp].  On every
    other input it returns. *)
Theorem makeString_throws_iff (input : string) (this : ShuntingYard) :
  (makeString input this = Throw TypeError <->
   exists pre c post,
     list_ascii_of_string input = pre ++ c :: post /\
     numeric_char c = true /\
     (String.length input <= 2 * operator_count pre)%nat) /\
  ((exists this', makeString input this = Normal this') <->
   forall pre c post,
     list_ascii_of_string input = pre ++ c :: post ->
     numeric_char c = true ->
     (2 * operator_count pre < String.length input)%nat).
Proof.
  rewrite makeString_scan.
  pose proof (scan_loop_outcome (String.length input)
                (list_ascii_of_string input) _ _
                (scanning_start (String.length input))) as H.
  destruct (for_each scan_char _ _) as [[temp idx]|[]|]; cbn in *; [| |done].
  - destruct H as (_ & _ & Hpos). split; split.
    + discriminate.
    + intros (pre & c & post & Heq & Hc & Hle).
      specialize (Hpos pre c post Heq Hc). lia.
    + intros _ pre c post Heq Hc. specialize (Hpos pre c post Heq Hc). lia.
    + intros _. by eexists.
  - destruct H as (pre & c & post & Heq & Hc & Hle). split; split.
    + intros _. by exists pre, c, post.
    + done.
    + intros [this' [=]].
    + intros Hpos. specialize (Hpos pre c post Heq Hc). lia.
Qed.

Lemma spelled_filter (temp : list value) :
  spelled (filter (fun v => strict_neq v (Str "") = true) temp) = spelled temp.
Proof.
  induction temp as [|v temp IH]; [done|].
  rewrite filter_cons. destruct v as [|x].
  - rewrite decide_True by done. cbn [spelled]. exact IH.
  - destruct (String.eqb_spec x "") as [->|Hx].
    + rewrite decide_False by (cbn; congruence). cbn [spelled].
      by rewrite IH.
    + rewrite decide_True.
      * cbn [spelled]. by rewrite IH.
      * unfold strict_neq. cbn. by apply negb_true_iff, String.eqb_neq.
Qed.

Lemma scan_index_bound (chars : list ascii) :
  forall temp tempIndex temp' tempIndex',
    for_each scan_char chars (temp, tempIndex) = Normal (temp', tempIndex') ->
    (tempIndex' <= tempIndex + 2 * length chars)%nat.
Proof.
  induction chars as [|c chars IH]; intros temp idx temp' idx'.
  - intros [= _ <-]. lia.
  - cbn [for_each].
    intros ([temp1 idx1] & Hstep & Hrest)%outcome_bind_normal.
    apply IH in Hrest. cbn [length].
    assert (idx1 <= S (S idx))%nat; [|lia].
    unfold scan_char in Hstep.
    destruct (isNaN (Str (String c EmptyString))); cbn [negb] in Hstep.
    + injection Hstep as _ <-. lia.
    + apply outcome_bind_normal in Hstep as (v & _ & [= _ <-]). lia.
Qed.

Lemma scanning_length n temp tempIndex :
  scanning n temp tempIndex -> (length temp <= Nat.max n tempIndex)%nat.
Proof.
  intros [(Hlt & front & x & -> & <-)|(Hge & ->)]; [|lia].
  rewrite length_app. cbn [length]. rewrite repeat_length. lia.
Qed.

(** What [makeString] has done when it returns. *)
Lemma makeString_returns_spec (input : string) (this this' : ShuntingYard) :
  makeString input this = Normal this' ->
  exists tokens,
    this' = mkShuntingYard (mkQueue (queue_array (stream this) ++ tokens))
              (q this) (s this) /\
    spelled tokens = input /\
    (Str "" ∉ tokens) /\
    (length tokens <= 2 * String.length input)%nat.
Proof.
  rewrite makeString_scan.
  pose proof (scan_loop_outcome (String.length input)
                (list_ascii_of_string input) _ _
                (scanning_start (String.length input))) as H.
  destruct (for_each scan_char _ _) as [[temp idx]| |] eqn:Hscan; cbn;
    [|done|done].
  intros [= <-]. destruct H as (Hs & Hsp & _).
  exists (filter (fun v => strict_neq v (Str "") = true) temp).
  split; [done|]. split; [|split].
  - rewrite spelled_filter, Hsp, spelled_blanks.
    apply string_of_list_ascii_of_string.
  - intros [H _]%list_elem_of_filter. discriminate.
  - apply scan_index_bound in Hscan. apply scanning_length in Hs.
    rewrite <- chars_length in Hscan.
    pose proof (length_filter (fun v => strict_neq v (Str "") = true) temp).
    lia.
Qed.

(** X12.  When [makeString] returns it has only appended tokens to the
    stream, none of them the empty string and at most two for each
    character, and the string tokens it appended spell the input:
    concatenated in order they give the input back, so no character is
    lost or moved.  The output queue and the operator stack are
    untouched. *)
Theorem makeString_spells_input (input : string) (this this' : ShuntingYard) :
  makeString input this = Normal this' ->
  exists tokens,
    this' = mkShuntingYard (mkQueue (queue_array (stream this) ++ tokens))
              (q this) (s this) /\
    spelled tokens = input /\
    (Str "" ∉ tokens) /\
    (length tokens <= 2 * String.length input)%nat.
Proof. apply makeString_returns_spec. Qed.

Lemma makeString_spells_input_witness :
  exists tokens,
    with_stream (map Str ["12"; "+"; "3"; "*"; "("; "4"; "-"; "1"; ")"])
    = mkShuntingYard (mkQueue (queue_array (stream ShuntingYard.new) ++ tokens))
        (q ShuntingYard.new) (s ShuntingYard.new) /\
    spelled tokens = "12+3*(4-1)" /\
    (Str "" ∉ tokens) /\
    (length tokens <= 2 * String.length "12+3*(4-1)")%nat.
Proof.
  apply (makeString_spells_input "12+3*(4-1)" ShuntingYard.new
           (with_stream (map Str ["12"; "+"; "3"; "*"; "("; "4"; "-"; "1"; ")"]))).
  reflexivity.
Defined.

(** A text of numeric characters is appended to the text in progress. *)
Lemma scan_text (d : list ascii) :
  forall front x blanks,
    forallb numeric_char d = true ->
    for_each scan_char d (front ++ Str x :: blanks, length front)
    = Normal (front ++ Str (x +:+ string_of_list_ascii d) :: blanks,
              length front).
Proof.
  induction d as [|c d IH]; intros front x blanks Hd.
  - cbn. by rewrite append_nil_r.
  - cbn [forallb] in Hd. apply andb_true_iff in Hd as [Hc Hd].
    cbn [for_each]. rewrite scan_numeric_in by done. cbn [mbind outcome_bind].
    rewrite IH by done. cbn [string_of_list_ascii].
    by rewrite append_assoc.
Qed.

Lemma number_text_spec (d : string) :
  number_text d = true ->
  forallb numeric_char (list_ascii_of_string d) = true /\
  (1 <= String.length d)%nat.
Proof.
  unfold number_text. intros [Hne Hd]%andb_true_iff. split; [done|].
  destruct d; [discriminate|cbn; lia].
Qed.

Lemma operator_text_spec (o : string) :
  operator_text o = true ->
  exists c, o = String c "" /\ numeric_char c = false.
Proof.
  destruct o as [|c [|]]; cbn; try discriminate.
  intros H%negb_true_iff. by exists c.
Qed.

Lemma spelled_length_cons (d : string) (ts : list value) :
  String.length (spelled (Str d :: ts))
  = (String.length d + String.length (spelled ts))%nat.
Proof.
  cbn [spelled]. by rewrite !chars_length, chars_append, length_app.
Qed.

(** The scanning loop on number texts separated by operator
    characters, with enough empty texts left in [temp]. *)
Lemma scan_alternating (n : nat) :
  forall ts d front x m,
    (length ts <= n)%nat ->
    alternating (Str d :: ts) = true ->
    (String.length (spelled ts) <= m)%nat ->
    for_each scan_char (list_ascii_of_string (spelled (Str d :: ts)))
      (front ++ Str x :: repeat (Str "") m, length front)
    = Normal (front ++ Str (x +:+ d) :: ts ++ repeat (Str "") (m - length ts),
              (length front + length ts)%nat).
Proof.
  induction n as [|n IH]; intros ts d front x m Hn Halt Hm.
  - destruct ts; [|cbn in Hn; lia].
    cbn [alternating] in Halt. apply number_text_spec in Halt as [Hd _].
    cbn [spelled]. rewrite append_nil_r, scan_text by done.
    rewrite string_of_list_ascii_of_string. cbn [app length].
    by rewrite Nat.sub_0_r, Nat.add_0_r.
  - destruct ts as [|[|o] ts].
    { cbn [alternating] in Halt. apply number_text_spec in Halt as [Hd _].
      cbn [spelled]. rewrite append_nil_r, scan_text by done.
      rewrite string_of_list_ascii_of_string. cbn [app length].
      by rewrite Nat.sub_0_r, Nat.add_0_r. }
    { discriminate. }
    change (alternating (Str d :: Str o :: ts))
      with (number_text d && operator_text o && alternating ts) in Halt.
    destruct ts as [|[|d'] ts].
    + by rewrite andb_false_r in Halt.
    + by rewrite andb_false_r in Halt.
    + change (alternating (Str d :: Str o :: Str d' :: ts))
        with (number_text d && operator_text o && alternating (Str d' :: ts))
        in Halt.
      apply andb_true_iff in Halt as [[Hd Ho]%andb_true_iff Hrest].
      apply number_text_spec in Hd as [Hd _].
      apply operator_text_spec in Ho as (c & -> & Hc).
      assert (1 <= String.length d')%nat as Hd'.
      { destruct ts as [|[|o'] ts'].
        - by apply number_text_spec in Hrest as [_ ?].
        - done.
        - change (alternating (Str d' :: Str o' :: ts'))
            with (number_text d' && operator_text o' && alternating ts') in Hrest.
          apply andb_true_iff in Hrest as [[H _]%andb_true_iff _].
          by apply number_text_spec in H as [_ ?]. }
      rewrite !spelled_length_cons in Hm. cbn [String.length] in Hm.
      cbn [length] in Hn.
      change (spelled (Str d :: Str (String c "") :: Str d' :: ts))
        with (d +:+ String c "" +:+ spelled (Str d' :: ts)).
      rewrite chars_append, append_cons. cbn [list_ascii_of_string String.append].
      rewrite for_each_app, scan_text by done. cbn [mbind outcome_bind for_each].
      rewrite string_of_list_ascii_of_string.
      rewrite scan_operator_in by done. cbn [mbind outcome_bind].
      replace (m - 1)%nat with (S (m - 2)) by lia. cbn [repeat].
      replace (front ++ Str (x +:+ d) :: Str (String c "") :: Str "" ::
                 repeat (Str "") (m - 2))
        with ((front ++ [Str (x +:+ d); Str (String c "")]) ++ Str "" ::
                repeat (Str "") (m - 2))
        by (by rewrite <- app_assoc).
      replace (S (S (length front)))
        with (length (front ++ [Str (x +:+ d); Str (String c "")]))
        by (rewrite length_app; cbn; lia).
      rewrite (IH ts d' _ "" (m - 2)%nat) by (done || lia).
      rewrite <- app_assoc. cbn [app length String.append].
      rewrite length_app. cbn [length].
      do 2 f_equal; [|lia].
      change ("" +:+ d') with d'.
      by replace (m - 2 - length ts)%nat with (m - S (S (length ts)))%nat by lia.
Qed.

Lemma alternating_kept (n : nat) :
  forall ts,
    (length ts <= n)%nat ->
    (alternating ts = true \/ ts = []) ->
    filter (fun v => strict_neq v (Str "") = true) ts = ts.
Proof.
  assert (forall d, number_text d = true -> strict_neq (Str d) (Str "") = true)
    as Hnum.
  { intros d [H _]%andb_true_iff. done. }
  induction n as [|n IH]; intros ts Hn Halt.
  - by destruct ts; [|cbn in Hn; lia].
  - destruct Halt as [Halt| ->]; [|done].
    destruct ts as [|[|d] [|[|o] ts]]; try discriminate.
    + cbn [alternating] in Halt. rewrite filter_cons, decide_True by auto.
      done.
    + change (alternating (Str d :: Str o :: ts))
        with (number_text d && operator_text o && alternating ts) in Halt.
      apply andb_true_iff in Halt as [[Hd Ho]%andb_true_iff Hrest].
      apply operator_text_spec in Ho as (c & -> & Hc).
      rewrite filter_cons, decide_True by auto.
      rewrite filter_cons, decide_True by done.
      rewrite IH; [done|cbn in Hn; lia|by left].
Qed.

Lemma filter_blanks m :
  filter (fun v => strict_neq v (Str "") = true) (repeat (Str "") m) = [].
Proof.
  induction m as [|m IH]; [done|]. cbn [repeat].
  rewrite filter_cons, decide_False by (cbn; congruence). exact IH.
Qed.

Lemma makeString_on_alternating (ts : list value) (this : ShuntingYard) :
  alternating ts = true ->
  makeString (spelled ts) this
  = Normal (mkShuntingYard (mkQueue (queue_array (stream this) ++ ts))
              (q this) (s this)).
Proof.
  intros Halt. rewrite makeString_scan.
  destruct ts as [|[|d] ts]; try discriminate.
  assert (1 <= String.length d)%nat as Hd.
  { destruct ts as [|[|o] ts'].
    - by apply number_text_spec in Halt as [_ ?].
    - done.
    - change (alternating (Str d :: Str o :: ts'))
        with (number_text d && operator_text o && alternating ts') in Halt.
      apply andb_true_iff in Halt as [[H _]%andb_true_iff _].
      by apply number_text_spec in H as [_ ?]. }
  rewrite spelled_length_cons.
  replace (String.length d + String.length (spelled ts))%nat
    with (S (String.length d + String.length (spelled ts) - 1)) by lia.
  cbn [repeat].
  pose proof (scan_alternating (length ts) ts d [] ""
                (String.length d + String.length (spelled ts) - 1)%nat
                ltac:(done) Halt ltac:(lia)) as Hscan.
  cbn [app length Nat.add] in Hscan. rewrite Hscan.
  cbn [mbind outcome_bind mret outcome_ret app String.append].
  do 3 f_equal.
  change ("" +:+ d) with d. rewrite app_comm_cons.
  rewrite filter_app, filter_blanks, app_nil_r. f_equal.
  apply (alternating_kept (S (length ts))); [done|by left].
Qed.

(** X13.  On number texts separated by single operator characters,
    [d0 o1 d1 ... ok dk] with every [d] a non-empty run of numeric
    characters and every [o] one other character, [makeString] returns
    and appends exactly the tokens [d0], [o1], [d1], ..., [dk] to the
    stream. *)
Theorem makeString_alternating (ts : list value) (this : ShuntingYard) :
  alternating ts = true ->
  makeString (spelled ts) this
  = Normal (mkShuntingYard (mkQueue (queue_array (stream this) ++ ts))
              (q this) (s this)).
Proof. apply makeString_on_alternating. Qed.

Lemma makeString_alternating_witness :
  makeString (spelled (map Str ["12"; "+"; "3"; "a"; " 4"])) ShuntingYard.new
  = Normal (mkShuntingYard
              (mkQueue (queue_array (stream ShuntingYard.new) ++
                        map Str ["12"; "+"; "3"; "a"; " 4"]))
              (q ShuntingYard.new) (s ShuntingYard.new)).
Proof.
  apply (makeString_alternating (map Str ["12"; "+"; "3"; "a"; " 4"])
           ShuntingYard.new).
  reflexivity.
Defined.

Lemma stack_last_in_first_out_witness : Stack.isEmpty Stack.new = true.
Proof.
  apply (proj2 (proj2 (proj2 (proj2 (proj2
           (stack_last_in_first_out Stack.new undefined)))))).
  reflexivity.
Defined.

Lemma queue_first_in_first_out_witness : Queue.isEmpty Queue.new = true.
Proof.
  apply (proj2 (proj2 (proj2 (queue_first_in_first_out Queue.new undefined)))).
  reflexivity.
Defined.

Lemma makeString_throws_iff_witness :
  makeString "(2+3)*4" ShuntingYard.new = Throw TypeError.
Proof.
  apply (proj1 (makeString_throws_iff "(2+3)*4" ShuntingYard.new)).
  exists (list_ascii_of_string "(2+3)*"), "4"%char, [].
  split; [reflexivity|]. split; [reflexivity|]. vm_compute. lia.
Defined.

(** ** From the string to the number *)

Lemma alternating_app (n : nat) :
  forall a o b,
    (length a <= n)%nat ->
    alternating a = true -> operator_text o = true -> alternating b = true ->
    alternating (a ++ Str o :: b) = true.
Proof.
  induction n as [|n IH]; intros a o b Hn Ha Ho Hb.
  - destruct a; [discriminate|cbn in Hn; lia].
  - destruct a as [|[|d] a]; try discriminate.
    destruct a as [|[|o'] a].
    + cbn [alternating] in Ha. cbn [app].
      change (alternating (Str d :: Str o :: b))
        with (number_text d && operator_text o && alternating b).
      by rewrite Ha, Ho, Hb.
    + discriminate.
    + change (alternating (Str d :: Str o' :: a))
        with (number_text d && operator_text o' && alternating a) in Ha.
      apply andb_true_iff in Ha as [Hd Ha]. cbn [app].
      change (alternating (Str d :: Str o' :: a ++ Str o :: b))
        with (number_text d && operator_text o' && alternating (a ++ Str o :: b)).
      rewrite Hd. cbn [andb]. apply IH; try done. cbn in Hn. lia.
Qed.

Lemma flat_T_alternating (t : T) :
  flat_T t = true -> alternating (tokens_T t) = true.
Proof.
  induction t as [f|l IH op r]; cbn [flat_T tokens_T].
  - by destruct f.
  - intros [Hl Hr]%andb_true_iff.
    apply (alternating_app (length (tokens_T l))); [done|by apply IH| |].
    + by destruct op.
    + by destruct r.
Qed.

Lemma flat_E_alternating (e : E) :
  flat_E e = true -> alternating (tokens_E e) = true.
Proof.
  induction e as [t|l IH op r]; cbn [flat_E tokens_E].
  - apply flat_T_alternating.
  - intros [Hl Hr]%andb_true_iff.
    apply (alternating_app (length (tokens_E l))); [done|by apply IH| |].
    + by destruct op.
    + by apply flat_T_alternating.
Qed.

(** X14.  From the string to the number: for every infix expression
    without parentheses whose numbers are non-empty numeric texts that
    [isNaN] takes for numbers, the three stages on the text of the
    expression return the value of the reference evaluator (precedence
    of [*] and [/] over [+] and [-], left to right, every intermediate
    result sent through its decimal string), and [calculate] shows its
    string and leaves a fresh engine. *)
Theorem evaluate_flat_expression (fuel : nat) (e : E) :
  flat_E e = true ->
  numeric_E e = true ->
  (length (tokens_E e) < fuel)%nat ->
  makeString (spelled (tokens_E e)) ShuntingYard.new
  = Normal (with_stream (tokens_E e)) /\
  evaluate fuel (spelled (tokens_E e)) = Normal (reference_through_string e) /\
  calculate fuel (spelled (tokens_E e)) ShuntingYard.new
  = Normal (toString (reference_through_string e), ShuntingYard.new).
Proof.
  intros Hflat Hnum Hf.
  pose proof (makeString_on_alternating _ ShuntingYard.new
                (flat_E_alternating e Hflat)) as Htok.
  change (makeString (spelled (tokens_E e)) ShuntingYard.new
          = Normal (with_stream (tokens_E e))) in Htok.
  assert (length (postfix_E e) < fuel)%nat as Hf'
    by (pose proof (proj1 postfix_length e); lia).
  split; [done|]. split.
  - unfold evaluate. rewrite Htok. cbn [mbind outcome_bind].
    rewrite (compute_infix_expression fuel e Hnum Hf). cbn [mbind outcome_bind].
    by rewrite (compute_rpn_expression fuel e Hnum Hf').
  - unfold calculate. rewrite Htok. cbn [mbind outcome_bind].
    rewrite (compute_infix_expression fuel e Hnum Hf). cbn [mbind outcome_bind].
    by rewrite (compute_rpn_expression fuel e Hnum Hf').
Qed.

(** The expression [2 * 3 + 40 / 8 - 1]. *)
Lemma evaluate_flat_expression_witness :
  evaluate 10 "2*3+40/8-1" = Normal (of_Z 10).
Proof.
  apply (evaluate_flat_expression 10
           (E_binary
              (E_binary
                 (E_term (T_binary (T_factor (F_number "2")) Times (F_number "3")))
                 Plus
                 (T_binary (T_factor (F_number "40")) Divide (F_number "8")))
              Minus (T_factor (F_number "1"))));
    [reflexivity|reflexivity|cbn; lia].
Defined.

(** ** Termination of the whole calculation *)

Lemma spelled_elem (l : list value) (x : string) (c : ascii) :
  Str x ∈ l -> c ∈ list_ascii_of_string x ->
  c ∈ list_ascii_of_string (spelled l).
Proof.
  induction l as [|v l IH]; intros Hx Hc.
  - by apply elem_of_nil in Hx.
  - apply elem_of_cons in Hx as [<-|Hx].
    + cbn [spelled]. rewrite chars_append. apply elem_of_app. by left.
    + destruct v as [|y]; cbn [spelled]; [by apply IH|].
      rewrite chars_append. apply elem_of_app. right. by apply IH.
Qed.

Lemma makeString_not_out_of_fuel (input : string) (this : ShuntingYard) :
  makeString input this <> OutOfFuel.
Proof.
  rewrite makeString_scan.
  pose proof (scan_loop_outcome (String.length input)
                (list_ascii_of_string input) _ _
                (scanning_start (String.length input))) as H.
  by destruct (for_each scan_char _ _) as [[temp idx]| |].
Qed.

Lemma compute_rpn_returns (fuel : nat) (this : ShuntingYard) :
  (length (queue_array (q this)) < fuel)%nat ->
  exists r this', compute_rpn fuel this = Normal (r, this').
Proof.
  intros Hf. unfold compute_rpn. fold more_output.
  destruct (evaluate_loop_returns fuel (this, Stack.new) Hf)
    as ([this' stack] & Hrun & _).
  rewrite Hrun. cbn [mbind outcome_bind mret outcome_ret]. by eexists _, _.
Qed.

(** X15.  The calculation can fail to terminate only on an input that
    contains the character [")"]: on every other input, with fuel above
    twice the length of the input, the three stages on a fresh engine
    either return a number, which [calculate] shows while leaving a
    fresh engine, or end in the [TypeError] of [makeString]. *)
Theorem calculation_ends_without_close (fuel : nat) (input : string) :
  ")"%char ∉ list_ascii_of_string input ->
  (2 * String.length input < fuel)%nat ->
  (exists r,
     evaluate fuel input = Normal r /\
     calculate fuel input ShuntingYard.new
     = Normal (toString r, ShuntingYard.new)) \/
  (makeString input ShuntingYard.new = Throw TypeError /\
   evaluate fuel input = Throw TypeError /\
   calculate fuel input ShuntingYard.new = Throw TypeError).
Proof.
  intros Hno Hf. unfold evaluate, calculate.
  destruct (makeString input ShuntingYard.new) as [this1|[]|] eqn:Hmake.
  - left.
    apply makeString_returns_spec in Hmake as (toks & -> & Hsp & _ & Hlen).
    cbn [stream q s ShuntingYard.new Queue.new queue_array app mbind outcome_bind].
    assert (Str ")" ∉ toks) as Hclose.
    { intros Hin. apply Hno. rewrite <- Hsp.
      apply (spelled_elem toks ")"); [done|]. by left. }
    destruct (compute_infix_without_close fuel
                (mkShuntingYard (mkQueue toks) Queue.new Stack.new))
      as (out & Hinfix & Hout); [done|cbn; lia|].
    cbn in Hout.
    rewrite Hinfix. cbn [mbind outcome_bind].
    destruct (compute_rpn_returns fuel (state [] out []))
      as (r & this' & Hrpn); [cbn; lia|].
    rewrite Hrpn. cbn [mbind outcome_bind mret outcome_ret].
    exists r. split; [done|].
    apply compute_rpn_keeps in Hrpn as [Hstream _].
    unfold clear. by rewrite Hstream.
  - right. by cbn.
  - by apply makeString_not_out_of_fuel in Hmake.
Qed.

Lemma calculation_ends_without_close_witness :
  (exists r,
     evaluate 7 "1+a" = Normal r /\
     calculate 7 "1+a" ShuntingYard.new = Normal (toString r, ShuntingYard.new)) \/
  (makeString "1+a" ShuntingYard.new = Throw TypeError /\
   evaluate 7 "1+a" = Throw TypeError /\
   calculate 7 "1+a" ShuntingYard.new = Throw TypeError).
Proof.
  apply (calculation_ends_without_close 7 "1+a").
  - cbn. intros H. repeat (apply elem_of_cons in H as [H|H]; [discriminate|]).
    by apply elem_of_nil in H.
  - cbn; lia.
Defined.

(** X16.  [compute_rpn] on the postfix form of a well-formed expression
    over number tokens returns the value of the expression, every
    operation applied to the left and right operand in this order and
    its result sent through its decimal string, and leaves the output
    queue empty. *)
Theorem compute_rpn_postfix (fuel : nat) (e : E) :
  numeric_E e = true ->
  (length (postfix_E e) < fuel)%nat ->
  compute_rpn fuel (state [] (postfix_E e) [])
  = Normal (reference_through_string e, ShuntingYard.new).
Proof. apply compute_rpn_expression. Qed.

Lemma compute_rpn_postfix_witness :
  compute_rpn 8 (state [] (postfix_E sample_expression) [])
  = Normal (reference_through_string sample_expression, ShuntingYard.new).
Proof.
  apply (compute_rpn_postfix 8 sample_expression); [reflexivity|cbn; lia].
Defined.
